(** * cre / kre : a streaming regular-expression engine

    A shallow embedding of [src/cre.c] (and of [src/kre.c], which is the
    same program with the prefix [kre_] in place of [cre_]) together with
    the properties of its simulator and of its iterator.

    C integers are modelled as [Z], C arrays as lists read and written
    through bounds-checked [load] and [store], and every function of the
    source that can go wrong returns in the monad [res]: a call either
    returns, or runs into undefined behaviour (an access out of bounds, a
    failed [assert], a pointer used after [realloc]), or exhausts the
    recursion budget it was given.  Where a property is about memory
    itself, the module [Heap] has the structs with their pointers in a
    memory of allocated blocks. *)

From stdpp Require Import base numbers list strings gmap.

Local Open Scope Z_scope.

(** * The program *)

(** ** Results of a call *)

Inductive res (A : Type) : Type :=
| Ret (a : A)
| Undef
| NoFuel.

Arguments Ret {A} a.
Arguments Undef {A}.
Arguments NoFuel {A}.

#[global] Instance res_ret : MRet res := @Ret.
#[global] Instance res_bind : MBind res := λ A B f m,
  match m with
  | Ret a => f a
  | Undef => Undef
  | NoFuel => NoFuel
  end.

#[global] Instance res_fmap : FMap res := λ A B f m,
  match m with
  | Ret a => Ret (f a)
  | Undef => Undef
  | NoFuel => NoFuel
  end.

Definition returns {A} (m : res A) : bool :=
  match m with Ret _ => true | _ => false end.

(** ** Arrays and loops *)

(** [a[i]] as an rvalue. *)
Definition load {A} (a : list A) (i : Z) : res A :=
  if bool_decide (0 ≤ i) then
    match a !! Z.to_nat i with
    | Some x => Ret x
    | None => Undef
    end
  else Undef.

(** [a[i] = x]. *)
Definition store {A} (a : list A) (i : Z) (x : A) : res (list A) :=
  if bool_decide (0 ≤ i < Z.of_nat (length a)) then Ret (<[Z.to_nat i := x]> a)
  else Undef.

(** [for (i = i0; i < i0 + k; i++) body], for a bound that the body does
    not change. *)
Fixpoint for_range {S} (k : nat) (i : Z) (body : Z → S → res S) (s : S)
  : res S :=
  match k with
  | O => Ret s
  | Datatypes.S k' => s' ← body i s; for_range k' (i + 1) body s'
  end.

(** [for (i = 0; i < n; i++) body]. *)
Definition for_upto {S} (n : Z) (body : Z → S → res S) (s : S) : res S :=
  for_range (Z.to_nat n) 0 body s.

(** ** Data model *)

Inductive cre_kind : Set := cre_EPS | cre_SET.

#[global] Instance cre_kind_eq_dec : EqDecision cre_kind.
Proof. solve_decision. Defined.

(** [struct cre_node].  The edges [u] and [v] are indices into the node
    array, or [-1] (no edge), or [-2] (accept).  [set] is the [bool*] table
    of a [cre_SET] node, meant to hold 256 entries. *)
Record cre_node : Type := {
  kind : cre_kind;
  u : Z;
  v : Z;
  set : list bool;
}.

Record cre_pat : Type := {
  nfa_len : Z;
  nfa : list cre_node;
  nfa_start : Z;
  src : string;
}.

(** [cre_sim].  The field [in] of the source is [in_] here. *)
Record cre_sim : Type := {
  pat : cre_pat;
  in_ : list bool;
  lastin : list bool;
}.

Record cre_iter_path : Type := {
  sim : cre_sim;
  Ms : Z;
  Me : Z;
  Gs : list Z;
  Ge : list Z;
}.

(** [cre_iter].  The source reads and writes [iter->pat] although the
    struct does not declare that field; it is [iter_pat] here. *)
Record cre_iter : Type := {
  iter_pat : cre_pat;
  paths_len : Z;
  paths_cap : Z;
  paths : list cre_iter_path;
  buf_len : Z;
  buf_cap : Z;
  buf : list Z;
}.

Definition sim_set_in (s : cre_sim) (a : list bool) : cre_sim :=
  {| pat := pat s; in_ := a; lastin := lastin s |}.


(** ** The pattern *)

Section PatInit.

(** [cre_parse_] is declared in the source and defined nowhere: it is a
    parameter here.  It receives the pattern under construction and the
    source text, may add nodes to the pattern, and returns the start
    index. *)
Variable cre_parse_ : cre_pat → string → res (cre_pat * Z).

(** [cre_pat_init(pat, src)].  The [char*] it returns is [None] for
    [NULL] and [Some msg] for an error string. *)
Definition cre_pat_init (p : cre_pat) (s : string)
  : res (cre_pat * option string) :=
  let p := {| nfa_len := nfa_len p; nfa := nfa p;
              nfa_start := nfa_start p; src := s |} in
  let p := {| nfa_len := 0; nfa := nfa p;
              nfa_start := nfa_start p; src := src p |} in
  let p := {| nfa_len := nfa_len p; nfa := [];
              nfa_start := nfa_start p; src := src p |} in
  '(p, start) ← cre_parse_ p s;
  let p := {| nfa_len := nfa_len p; nfa := nfa p;
              nfa_start := start; src := src p |} in
  Ret (p, None).

End PatInit.

(** Whether a call of [cre_pat_init] handed an error string back. *)
Definition reports_error (r : res (cre_pat * option string)) : bool :=
  match r with
  | Ret (_, Some _) => true
  | _ => false
  end.

(** ** The simulator *)

(** [cre_sim_reset].  The loop bound is written [pat->nfa_len] in the
    source, where no [pat] is in scope; it is [sim->pat->nfa_len]. *)
Definition cre_sim_reset (s : cre_sim) : res cre_sim :=
  s ← for_upto (nfa_len (pat s)) (λ i s,
         l ← store (lastin s) i false;
         a ← store (in_ s) i false;
         Ret {| pat := pat s; in_ := a; lastin := l |}) s;
  a ← store (in_ s) (nfa_start (pat s)) true;
  Ret (sim_set_in s a).

(** [cre_sim_init(sim, pat)].  [m_in] and [m_lastin] are the two blocks
    that [malloc] returns, of indeterminate content.  The source ends with
    [cre_sim_reset(iter)], where no [iter] is in scope; it is
    [cre_sim_reset(sim)]. *)
Definition cre_sim_init (m_in m_lastin : list bool) (p : cre_pat)
  : res cre_sim :=
  cre_sim_reset {| pat := p; in_ := m_in; lastin := m_lastin |}.

(** [cre_sim_add_(sim, i)]: one unit of [fuel] per nested call. *)
Fixpoint cre_sim_add_ (fuel : nat) (s : cre_sim) (i : Z)
  : res (bool * cre_sim) :=
  match fuel with
  | O => NoFuel
  | Datatypes.S fuel =>
    if bool_decide (i = -1) then Ret (false, s)
    else if bool_decide (i = -2) then Ret (true, s)
    else if negb (bool_decide (0 ≤ i)) then Undef
    else if negb (bool_decide (i < nfa_len (pat s))) then Undef
    else
      n ← load (nfa (pat s)) i;
      match kind n with
      | cre_EPS =>
        '(r1, s) ← cre_sim_add_ fuel s (u n);
        '(r2, s) ← cre_sim_add_ fuel s (v n);
        Ret (r1 || r2, s)
      | cre_SET =>
        a ← store (in_ s) i true;
        Ret (false, sim_set_in s a)
      end
  end.

(** One round of the second loop of [cre_sim_feedc], at index [i]: [r] is
    [res] and [s] the simulator. *)
Definition feedc_scan (fuel : nat) (c : Z) (i : Z) (rs : bool * cre_sim)
  : res (bool * cre_sim) :=
  let '(r, s) := rs in
  active ← load (lastin s) i;
  if active : bool then
    n ← load (nfa (pat s)) i;
    valid ← match kind n with
            | cre_SET => load (set n) c
            | cre_EPS => Ret false
            end;
    if valid : bool then
      '(r1, s) ← cre_sim_add_ fuel s (u n);
      '(r2, s) ← cre_sim_add_ fuel s (v n);
      Ret (r || r1 || r2, s)
    else Ret (r, s)
  else Ret (r, s).

(** [cre_sim_feedc(sim, c)]: the buffers change roles, the new [in] is
    cleared, and the nodes that were active are scanned.  [c] is the value
    of the [char] parameter, used as it is to index [n->set]. *)
Definition cre_sim_feedc (fuel : nat) (s : cre_sim) (c : Z)
  : res (bool * cre_sim) :=
  let s := {| pat := pat s; in_ := lastin s; lastin := in_ s |} in
  s ← for_upto (nfa_len (pat s)) (λ i s,
         a ← store (in_ s) i false; Ret (sim_set_in s a)) s;
  for_upto (nfa_len (pat s)) (feedc_scan fuel c) (false, s).

(** A byte [0..255] as the [char] argument it becomes: unchanged where
    [char] is unsigned, wrapped into [-128..127] where it is signed. *)
Definition char_of_byte (signed_char : bool) (b : Z) : Z :=
  if signed_char && bool_decide (128 ≤ b) then b - 256 else b.

(** ** The iterator *)

(** The value of an [int] expression: signed overflow is undefined. *)
Definition int_val (z : Z) : res Z :=
  if bool_decide (-2147483648 ≤ z ≤ 2147483647) then Ret z else Undef.

Definition path_set_sim (p : cre_iter_path) (s : cre_sim) : cre_iter_path :=
  {| sim := s; Ms := Ms p; Me := Me p; Gs := Gs p; Ge := Ge p |}.

Definition path_set_Ms (p : cre_iter_path) (z : Z) : cre_iter_path :=
  {| sim := sim p; Ms := z; Me := Me p; Gs := Gs p; Ge := Ge p |}.

Definition path_set_Me (p : cre_iter_path) (z : Z) : cre_iter_path :=
  {| sim := sim p; Ms := Ms p; Me := z; Gs := Gs p; Ge := Ge p |}.

Definition iter_set_paths (it : cre_iter) (ps : list cre_iter_path)
  : cre_iter :=
  {| iter_pat := iter_pat it; paths_len := paths_len it;
     paths_cap := paths_cap it; paths := ps;
     buf_len := buf_len it; buf_cap := buf_cap it; buf := buf it |}.

Definition iter_set_paths_len (it : cre_iter) (n : Z) : cre_iter :=
  {| iter_pat := iter_pat it; paths_len := n;
     paths_cap := paths_cap it; paths := paths it;
     buf_len := buf_len it; buf_cap := buf_cap it; buf := buf it |}.

Definition iter_set_paths_cap (it : cre_iter) (n : Z) : cre_iter :=
  {| iter_pat := iter_pat it; paths_len := paths_len it;
     paths_cap := n; paths := paths it;
     buf_len := buf_len it; buf_cap := buf_cap it; buf := buf it |}.

(** [cre_iter_reset]. *)
Definition cre_iter_reset (it : cre_iter) : cre_iter :=
  let it := {| iter_pat := iter_pat it; paths_len := 0;
               paths_cap := paths_cap it; paths := paths it;
               buf_len := buf_len it; buf_cap := buf_cap it;
               buf := buf it |} in
  {| iter_pat := iter_pat it; paths_len := paths_len it;
     paths_cap := paths_cap it; paths := paths it;
     buf_len := 0; buf_cap := buf_cap it; buf := buf it |}.

(** [cre_iter_init(iter, pat)], on the struct [it] as the caller hands it
    over.  [iter->buf] is not assigned ([buf_len] is, twice); [NULL] is
    the empty array. *)
Definition cre_iter_init (it : cre_iter) (p : cre_pat) : cre_iter :=
  cre_iter_reset
    {| iter_pat := p; paths_len := 0; paths_cap := 0; paths := [];
       buf_len := 0; buf_cap := 0; buf := buf it |}.

(** The scan [for (j = 0; !has_instate && j < n; ++j) has_instate = a[j]],
    from [j] on with [k] indices left. *)
Fixpoint has_instate_from (k : nat) (j : Z) (a : list bool) : res bool :=
  match k with
  | O => Ret false
  | Datatypes.S k' =>
    b ← load a j;
    if b : bool then Ret true else has_instate_from k' (j + 1) a
  end.

Section IterFeed.

(** What memory holds when [malloc] or [realloc] hands it out. *)
Variable junk_bool : bool.
Variable junk_int : Z.

Definition malloc {A} (junk : A) (n : Z) : list A :=
  replicate (Z.to_nat n) junk.

Definition junk_path (p : cre_pat) : cre_iter_path :=
  {| sim := {| pat := p; in_ := []; lastin := [] |};
     Ms := junk_int; Me := junk_int; Gs := []; Ge := [] |}.

(** [realloc] of [paths] to [cap] slots: the old slots up to the new
    size, then slots of indeterminate content. *)
Definition realloc_paths (p : cre_pat) (ps : list cre_iter_path) (cap : Z)
  : list cre_iter_path :=
  take (Z.to_nat cap)
       (ps ++ replicate (Z.to_nat cap - length ps)%nat (junk_path p)).

(** The branch of [cre_iter_feedc] that enlarges the pool.  Its loop
    runs on the same [i] as the loop around it, and leaves it at
    [paths_cap]. *)
Definition grow_paths (it : cre_iter) : res (cre_iter * Z) :=
  cap ← int_val (paths_len it * 2 + 4);
  let it := iter_set_paths_cap it cap in
  let it := iter_set_paths it (realloc_paths (iter_pat it) (paths it) cap) in
  it ← for_range (Z.to_nat (paths_cap it - paths_len it)) (paths_len it)
        (λ i it,
          q ← load (paths it) i;
          s ← cre_sim_init
                (malloc junk_bool (nfa_len (iter_pat it)))
                (malloc junk_bool (nfa_len (iter_pat it))) (iter_pat it);
          let q := {| sim := s; Ms := Ms q; Me := Me q;
                      Gs := malloc junk_int (nfa_len (iter_pat it));
                      Ge := malloc junk_int (nfa_len (iter_pat it)) |} in
          ps ← store (paths it) i q;
          Ret (iter_set_paths it ps)) it;
  Ret (it, Z.max (paths_len it) (paths_cap it)).

(** One pass through the body of the loop of [cre_iter_feedc], entered
    with loop variable [i] and flag [has_newpath].  [p] is
    [&iter->paths[i]] as taken on entry, and [s] is [&p->sim]: they point
    into the array that [realloc] gives back in the branch that enlarges
    the pool, so [p_live] is false from there on and the next use of [p],
    in [if (p->Ms >= 0)], is undefined.  The bound of the scan for a live
    state is written [s->nfa_len] in the source, a field [cre_sim] does
    not have; it is [s->pat->nfa_len]. *)
Definition feedc_body (fuel : nat) (c : Z) (it : cre_iter) (i : Z)
           (has_newpath : bool) : res (cre_iter * Z * bool) :=
  let p := i in
  pv ← load (paths it) p;
  '(it, i, has_newpath, p_live) ←
    (if negb has_newpath && bool_decide (Ms pv < 0) then
       let pv := path_set_Ms pv (buf_len it) in
       let pv := path_set_Me pv (-1) in
       ps ← store (paths it) p pv;
       Ret (iter_set_paths it ps, i, true, true)
     else if negb has_newpath && bool_decide (i = paths_len it - 1) then
       '(it, i, p_live) ←
         (if bool_decide (paths_cap it ≤ paths_len it)
          then '(it, i) ← grow_paths it; Ret (it, i, false)
          else Ret (it, i, true));
       q ← load (paths it) (paths_len it);
       let q := path_set_Ms q (buf_len it) in
       let q := path_set_Me q (-1) in
       ps ← store (paths it) (paths_len it) q;
       let it := iter_set_paths it ps in
       n ← int_val (paths_len it + 1);
       Ret (iter_set_paths_len it n, i, true, p_live)
     else Ret (it, i, has_newpath, true));
  if negb p_live then Undef else
  pv ← load (paths it) p;
  if bool_decide (0 ≤ Ms pv) then
    '(ismatch, s) ← cre_sim_feedc fuel (sim pv) c;
    let pv := path_set_sim pv s in
    let pv := if ismatch : bool then path_set_Me pv (buf_len it) else pv in
    ps ← store (paths it) p pv;
    let it := iter_set_paths it ps in
    has_instate ← has_instate_from (Z.to_nat (nfa_len (pat s))) 0 (in_ s);
    if negb has_instate then
      if bool_decide (0 ≤ Me pv) then
        (* "we had a valid match, so add it to the queue": no statement *)
        Ret (it, i, has_newpath)
      else if bool_decide (i = paths_len it - 1) then
        n ← int_val (paths_len it - 1);
        Ret (iter_set_paths_len it n, i, has_newpath)
      else
        ps ← store (paths it) p (path_set_Ms pv (-1));
        Ret (iter_set_paths it ps, i, has_newpath)
    else Ret (it, i, has_newpath)
  else Ret (it, i, has_newpath).

(** [for (i = ...; i < iter->paths_len; ++i) body], from the test on. *)
Fixpoint feedc_loop (fuel : nat) (c : Z) (it : cre_iter) (i : Z)
         (has_newpath : bool) : res cre_iter :=
  if bool_decide (i < paths_len it) then
    match fuel with
    | O => NoFuel
    | Datatypes.S fuel =>
      '(it, i, has_newpath) ← feedc_body fuel c it i has_newpath;
      i ← int_val (i + 1);
      feedc_loop fuel c it i has_newpath
    end
  else Ret it.

(** [cre_iter_feedc(iter, c)].  The function is declared [bool] and ends
    without a [return]: what it leaves behind is the iterator. *)
Definition cre_iter_feedc (fuel : nat) (it : cre_iter) (c : Z)
  : res cre_iter :=
  feedc_loop fuel c it 0 false.

End IterFeed.

(** ** The iterator in memory *)

(** The same structs as the header lays them out, with pointers for
    pointers, in a memory of allocated blocks that keeps a log of what the
    allocator was asked to do: the functions of the source that are about
    memory itself, and [cre_iter_reset] once more, as a function on that
    memory. *)
Module Heap.

(** A pointer: [NULL], or the block an allocation returned. *)
Inductive ptr : Type :=
| NULL
| Block (b : nat).

Record cre_sim : Type := {
  pat : ptr;
  in_ : ptr;
  lastin : ptr;
}.

Record cre_iter_path : Type := {
  sim : cre_sim;
  Ms : Z;
  Me : Z;
  Gs : ptr;
  Ge : ptr;
}.

Record cre_iter : Type := {
  iter_pat : ptr;
  paths_len : Z;
  paths_cap : Z;
  paths : ptr;
  buf_len : Z;
  buf_cap : Z;
  buf : ptr;
}.

(** What a block holds: a [bool] array ([in], [lastin]), an [int] array
    ([Gs], [Ge]), a [char] array ([buf]), the array of paths, or the
    [cre_iter] struct itself. *)
Inductive object : Type :=
| obj_bools (a : list bool)
| obj_ints (a : list Z)
| obj_chars (a : list Z)
| obj_paths (a : list cre_iter_path)
| obj_iter (it : cre_iter).

Inductive event : Type :=
| ev_malloc (b : nat)
| ev_realloc (p : ptr) (b : nat)
| ev_free (p : ptr).

Record mem : Type := {
  objs : gmap nat object;
  log : list event;
}.

(** [malloc]: a block that is not in use, of indeterminate content [o]. *)
Definition malloc (m : mem) (o : object) : nat * mem :=
  let b := fresh (dom (objs m)) in
  (b, {| objs := <[b := o]> (objs m); log := log m ++ [ev_malloc b] |}).

(** [free(p)]: nothing happens for [NULL]; a pointer that is not the
    start of a block in use is undefined. *)
Definition free (m : mem) (p : ptr) : res mem :=
  match p with
  | NULL => Ret {| objs := objs m; log := log m ++ [ev_free NULL] |}
  | Block b =>
    match objs m !! b with
    | Some _ => Ret {| objs := delete b (objs m);
                       log := log m ++ [ev_free p] |}
    | None => Undef
    end
  end.

(** [realloc(p, ...)] to the content [o]: the old block is given up and a
    block that is not in use is returned. *)
Definition realloc (m : mem) (p : ptr) (o : object) : res (nat * mem) :=
  m ← match p with
      | NULL => Ret m
      | Block b =>
        match objs m !! b with
        | Some _ => Ret {| objs := delete b (objs m); log := log m |}
        | None => Undef
        end
      end;
  let b := fresh (dom (objs m)) in
  Ret (b, {| objs := <[b := o]> (objs m);
             log := log m ++ [ev_realloc p b] |}).

Definition load_iter (m : mem) (p : ptr) : res cre_iter :=
  match p with
  | Block b =>
    match objs m !! b with
    | Some (obj_iter it) => Ret it
    | _ => Undef
    end
  | NULL => Undef
  end.

Definition store_iter (m : mem) (p : ptr) (it : cre_iter) : res mem :=
  match p with
  | Block b =>
    match objs m !! b with
    | Some (obj_iter _) =>
      Ret {| objs := <[b := obj_iter it]> (objs m); log := log m |}
    | _ => Undef
    end
  | NULL => Undef
  end.

Definition load_paths (m : mem) (p : ptr) : res (list cre_iter_path) :=
  match p with
  | Block b =>
    match objs m !! b with
    | Some (obj_paths a) => Ret a
    | _ => Undef
    end
  | NULL => Undef
  end.

(** [cre_iter_reset(iter)]: [iter->paths_len = 0; iter->buf_len = 0;]. *)
Definition cre_iter_reset (m : mem) (iter : ptr) : res mem :=
  it ← load_iter m iter;
  m ← store_iter m iter
        {| iter_pat := iter_pat it; paths_len := 0;
           paths_cap := paths_cap it; paths := paths it;
           buf_len := buf_len it; buf_cap := buf_cap it; buf := buf it |};
  it ← load_iter m iter;
  store_iter m iter
    {| iter_pat := iter_pat it; paths_len := paths_len it;
       paths_cap := paths_cap it; paths := paths it;
       buf_len := 0; buf_cap := buf_cap it; buf := buf it |}.

(** [cre_sim_free(sim)]. *)
Definition cre_sim_free (m : mem) (s : cre_sim) : res mem :=
  m ← free m (in_ s);
  free m (lastin s).

(** [cre_iter_free(iter)]: every slot of the pool, in use or not, gives up
    the two buffers of its simulator and its two capture arrays; then the
    pool and the byte buffer go. *)
Definition cre_iter_free (m : mem) (iter : ptr) : res mem :=
  it ← load_iter m iter;
  m ← for_upto (paths_cap it) (λ i m,
        it ← load_iter m iter;
        ps ← load_paths m (paths it);
        q ← load ps i;
        m ← cre_sim_free m (sim q);
        m ← free m (Gs q);
        free m (Ge q)) m;
  it ← load_iter m iter;
  m ← free m (paths it);
  it ← load_iter m iter;
  free m (buf it).

End Heap.

(** ** Sequences of calls *)

(** Feeding a sequence of bytes, one [cre_sim_feedc] per byte. *)
Fixpoint cre_sim_feeds (fuel : nat) (s : cre_sim) (cs : list Z)
  : res (list bool * cre_sim) :=
  match cs with
  | [] => Ret ([], s)
  | c :: cs =>
    '(r, s) ← cre_sim_feedc fuel s c;
    '(rs, s) ← cre_sim_feeds fuel s cs;
    Ret (r :: rs, s)
  end.

(** * Vocabulary of the properties *)

(** The node an edge value [i] designates, when it is an index. *)
Definition node_at (p : cre_pat) (i : Z) : option cre_node :=
  if bool_decide (0 ≤ i < nfa_len p) then nfa p !! Z.to_nat i else None.

(** Entry [i] of a [bool] array is set. *)
Definition active (a : list bool) (i : Z) : Prop :=
  0 ≤ i ∧ a !! Z.to_nat i = Some true.

(** Following edge [i] leads to accept without consuming a byte. *)
Inductive reaches_accept (p : cre_pat) : Z → Prop :=
| reach_accept : reaches_accept p (-2)
| reach_eps_u i n :
    node_at p i = Some n → kind n = cre_EPS →
    reaches_accept p (u n) → reaches_accept p i
| reach_eps_v i n :
    node_at p i = Some n → kind n = cre_EPS →
    reaches_accept p (v n) → reaches_accept p i.

(** Following edge [i] leads to the byte-matching node [j] without
    consuming a byte. *)
Inductive closure_reaches (p : cre_pat) : Z → Z → Prop :=
| closure_set i n :
    node_at p i = Some n → kind n = cre_SET → closure_reaches p i i
| closure_eps_u i n j :
    node_at p i = Some n → kind n = cre_EPS →
    closure_reaches p (u n) j → closure_reaches p i j
| closure_eps_v i n j :
    node_at p i = Some n → kind n = cre_EPS →
    closure_reaches p (v n) j → closure_reaches p i j.

(** Some node that is active in [s] matches [c], and one of its two edges
    leads to accept through the closure. *)
Definition accepts_on (s : cre_sim) (c : Z) : Prop :=
  ∃ i n, active (in_ s) i ∧ node_at (pat s) i = Some n ∧
         kind n = cre_SET ∧ active (set n) c ∧
         (reaches_accept (pat s) (u n) ∨ reaches_accept (pat s) (v n)).

(** No active entry of [a] is the index of an epsilon node. *)
Definition no_eps_active (p : cre_pat) (a : list bool) : Prop :=
  ∀ i n, active a i → node_at p i = Some n → kind n = cre_SET.

(** Well-formed patterns: the length field is the length of the node
    array, the start index and every edge are in range, every table has
    256 entries. *)
Definition edge_ok (p : cre_pat) (j : Z) : bool :=
  bool_decide (j = -1) || bool_decide (j = -2)
  || bool_decide (0 ≤ j < nfa_len p).

Definition node_ok (p : cre_pat) (n : cre_node) : bool :=
  edge_ok p (u n) && edge_ok p (v n) &&
  match kind n with
  | cre_SET => bool_decide (length (set n) = 256%nat)
  | cre_EPS => true
  end.

Definition pat_ok (p : cre_pat) : bool :=
  bool_decide (nfa_len p = Z.of_nat (length (nfa p)))
  && bool_decide (0 ≤ nfa_start p < nfa_len p)
  && forallb (node_ok p) (nfa p).

(** A simulator as [cre_sim_init] sets it up: two buffers of [nfa_len]
    entries over a well-formed pattern. *)
Definition sim_ok (s : cre_sim) : bool :=
  pat_ok (pat s)
  && bool_decide (Z.of_nat (length (in_ s)) = nfa_len (pat s))
  && bool_decide (Z.of_nat (length (lastin s)) = nfa_len (pat s)).

(** [rk] decreases along both edges of every epsilon node: the epsilon
    nodes form no cycle. *)
Definition edge_below (rk : Z → nat) (i j : Z) : bool :=
  bool_decide (j < 0) || bool_decide (rk j < rk i)%nat.

Definition eps_ranked (p : cre_pat) (rk : Z → nat) : bool :=
  forallb (λ b : bool, b)
    (imap (λ i n,
       match kind n with
       | cre_EPS => edge_below rk (Z.of_nat i) (u n)
                    && edge_below rk (Z.of_nat i) (v n)
       | cre_SET => true
       end) (nfa p)).

(** The recursion depth [cre_sim_add_] needs on edge [i]. *)
Definition add_depth (rk : Z → nat) (i : Z) : nat :=
  if bool_decide (i < 0) then 0%nat else S (rk i).

(** The state [cre_sim_reset] leaves: both buffers cleared, and the start
    index marked in [in]. *)
Definition reset_state (p : cre_pat) : cre_sim :=
  {| pat := p;
     in_ := <[Z.to_nat (nfa_start p) := true]>
              (replicate (Z.to_nat (nfa_len p)) false);
     lastin := replicate (Z.to_nat (nfa_len p)) false |}.

(** Node [i], which is [n], is active in [s] and matches [c]. *)
Definition fires (s : cre_sim) (c i : Z) (n : cre_node) : Prop :=
  active (in_ s) i ∧ node_at (pat s) i = Some n ∧
  kind n = cre_SET ∧ active (set n) c.

(** The byte-matching node [j] is in the closure of an edge of a node that
    is active in [s] and matches [c]. *)
Definition steps_to (s : cre_sim) (c j : Z) : Prop :=
  ∃ i n, fires s c i n ∧
         (closure_reaches (pat s) (u n) j ∨ closure_reaches (pat s) (v n) j).

(** A budget that suffices for the closure of any edge of [p]. *)
Definition closure_fuel (p : cre_pat) (rk : Z → nat) : nat :=
  S (max_list ((λ i, S (rk i)) <$> seqZ 0 (nfa_len p))).

(** The paths in use: the first [paths_len] slots. *)
Definition iter_live (it : cre_iter) : list cre_iter_path :=
  take (Z.to_nat (paths_len it)) (paths it).

(** The paths in use whose match starts at [pos]. *)
Definition anchored_at (it : cre_iter) (pos : Z) : list cre_iter_path :=
  filter (λ q, Ms q = pos) (iter_live it).

(** What a slot of the pool holds apart from its anchor: the two buffers
    of its simulator and its two capture arrays. *)
Definition slot_contents (q : cre_iter_path)
  : list bool * list bool * list Z * list Z :=
  (in_ (sim q), lastin (sim q), Gs q, Ge q).

(** What the operations of the iterator can tell apart: the pattern, the
    two lengths, the paths in use and the bytes retained. *)
Definition iter_view (it : cre_iter)
  : cre_pat * Z * Z * list cre_iter_path * list Z :=
  (iter_pat it, paths_len it, buf_len it, iter_live it,
   take (Z.to_nat (buf_len it)) (buf it)).

Inductive iter_op : Type :=
| op_feedc (c : Z)
| op_reset.

Section IterRun.

Variable junk_bool : bool.
Variable junk_int : Z.

Fixpoint cre_iter_feeds (fuel : nat) (it : cre_iter) (cs : list Z)
  : res cre_iter :=
  match cs with
  | [] => Ret it
  | c :: cs =>
    it ← cre_iter_feedc junk_bool junk_int fuel it c;
    cre_iter_feeds fuel it cs
  end.

(** A sequence of calls, with the view after each. *)
Fixpoint iter_run (fuel : nat) (it : cre_iter) (ops : list iter_op)
  : res (list (cre_pat * Z * Z * list cre_iter_path * list Z)) :=
  match ops with
  | [] => Ret []
  | o :: ops =>
    it ← match o with
         | op_feedc c => cre_iter_feedc junk_bool junk_int fuel it c
         | op_reset => Ret (cre_iter_reset it)
         end;
    vs ← iter_run fuel it ops;
    Ret (iter_view it :: vs)
  end.

End IterRun.

(** Both buffers of the simulator have [nfa_len] entries, as
    [cre_sim_init] allocates them. *)
Definition sim_sized (s : cre_sim) : bool :=
  bool_decide (Z.of_nat (length (in_ s)) = nfa_len (pat s))
  && bool_decide (Z.of_nat (length (lastin s)) = nfa_len (pat s)).

(** No entry of a [bool] array is set. *)
Definition all_clear (a : list bool) : bool := forallb negb a.

(** Started at the byte-matching node [i], the automaton consumes the
    bytes [cs], one node per byte and a closure between two nodes, and
    reaches accept through the closure after the last byte. *)
Inductive matches_from (p : cre_pat) : Z → list Z → Prop :=
| matches_last i n c :
    node_at p i = Some n → kind n = cre_SET → active (set n) c →
    reaches_accept p (u n) ∨ reaches_accept p (v n) →
    matches_from p i [c]
| matches_step i n c j cs :
    node_at p i = Some n → kind n = cre_SET → active (set n) c →
    closure_reaches p (u n) j ∨ closure_reaches p (v n) j →
    matches_from p j cs →
    matches_from p i (c :: cs).

(** Every byte of [cs] is an index of the 256-entry tables. *)
Definition table_indices (cs : list Z) : bool :=
  forallb (λ c, bool_decide (0 ≤ c < 256)) cs.

(** The pool of the iterator is full and laid out as [cre_iter_feedc]
    keeps it: [paths] holds [paths_cap] slots, all of them in use. *)
Definition pool_full (it : cre_iter) : bool :=
  bool_decide (Z.of_nat (length (paths it)) = paths_cap it)
  && bool_decide (paths_len it = paths_cap it).

(** What the iterator [it'] has kept of [it]: the pattern and the three
    fields of the byte buffer. *)
Definition iter_frame (it it' : cre_iter) : Prop :=
  iter_pat it' = iter_pat it ∧ buf_len it' = buf_len it ∧
  buf_cap it' = buf_cap it ∧ buf it' = buf it.

(** The slot [q] is as the loop of [grow_paths] sets a new slot up: its
    simulator is the one [cre_sim_init] builds for [p], and its two
    capture arrays are blocks of [nfa_len] entries. *)
Definition slot_fresh (junk_int : Z) (p : cre_pat) (q : cre_iter_path)
  : Prop :=
  sim q = reset_state p ∧
  Gs q = malloc junk_int (nfa_len p) ∧ Ge q = malloc junk_int (nfa_len p).

(** * Sample patterns, simulators and iterators *)

Definition byte_set (f : Z → bool) : list bool := f <$> seqZ 0 256.

Definition set_a : list bool := byte_set (λ b, bool_decide (b = 97)).

Definition set_b : list bool := byte_set (λ b, bool_decide (b = 98)).

(** [a]: one byte-matching node whose edge [u] accepts. *)
Definition pat_a : cre_pat :=
  {| nfa_len := 1;
     nfa := [ {| kind := cre_SET; u := -2; v := -1; set := set_a |} ];
     nfa_start := 0; src := "a" |}.

Definition set_c : list bool := byte_set (λ b, bool_decide (b = 99)).

(** [abc]: three byte-matching nodes in a row. *)
Definition pat_abc : cre_pat :=
  {| nfa_len := 3;
     nfa := [ {| kind := cre_SET; u := 1; v := -1; set := set_a |};
              {| kind := cre_SET; u := 2; v := -1; set := set_b |};
              {| kind := cre_SET; u := -2; v := -1; set := set_c |} ];
     nfa_start := 0; src := "abc" |}.

(** [a*]: a split node in front of the byte-matching node. *)
Definition pat_a_star : cre_pat :=
  {| nfa_len := 2;
     nfa := [ {| kind := cre_EPS; u := 1; v := -2; set := [] |};
              {| kind := cre_SET; u := 0; v := -1; set := set_a |} ];
     nfa_start := 0; src := "a*" |}.

(** [b] followed by the star of [a*]: node 0 matches [b]; node 1 matches
    [a]; node 2 is the split node of the inner star and node 3 the split
    node of the outer star, each an edge of the other. *)
Definition pat_b_a_star_star : cre_pat :=
  {| nfa_len := 4;
     nfa := [ {| kind := cre_SET; u := 3; v := -1; set := set_b |};
              {| kind := cre_SET; u := 2; v := -1; set := set_a |};
              {| kind := cre_EPS; u := 1; v := 3; set := [] |};
              {| kind := cre_EPS; u := 2; v := -2; set := [] |} ];
     nfa_start := 0; src := "b(a*)*" |}.

(** A rank for [a*]: the split node above the byte-matching node. *)
Definition rk_a_star (i : Z) : nat :=
  if bool_decide (i = 0) then 1%nat else 0%nat.

Definition sim_a : cre_sim := reset_state pat_a.

Definition sim_a_star : cre_sim := reset_state pat_a_star.

(** A simulator of [a*] that has just been fed an [a]: the byte-matching
    node is active in both buffers. *)
Definition sim_a_star_fed : cre_sim :=
  {| pat := pat_a_star; in_ := [false; true]; lastin := [false; true] |}.

Definition sim_b_a_star_star : cre_sim := reset_state pat_b_a_star_star.

(** An iterator over [a] with one path in use, started at offset 0, and
    one more slot in its pool. *)
Definition iter_a_one_path : cre_iter :=
  {| iter_pat := pat_a; paths_len := 1; paths_cap := 2;
     paths := [ {| sim := sim_a; Ms := 0; Me := -1; Gs := [0]; Ge := [0] |};
                {| sim := sim_a; Ms := -1; Me := -1; Gs := [0]; Ge := [0] |} ];
     buf_len := 0; buf_cap := 0; buf := [] |}.

(** An iterator over [abc] whose pool of one slot is full. *)
Definition iter_abc_full : cre_iter :=
  {| iter_pat := pat_abc; paths_len := 1; paths_cap := 1;
     paths := [ {| sim := reset_state pat_abc; Ms := 0; Me := -1;
                   Gs := [0; 0; 0]; Ge := [0; 0; 0] |} ];
     buf_len := 0; buf_cap := 0; buf := [] |}.

(** A memory with an iterator at block 0: a pool of one slot at block 1,
    in use, whose simulator has its buffers at blocks 2 and 3 and whose
    capture arrays are at blocks 4 and 5, and a byte buffer at block 6. *)
Definition mem_one_path : Heap.mem :=
  {| Heap.objs :=
       list_to_map
         [ (0%nat, Heap.obj_iter
                     {| Heap.iter_pat := Heap.NULL; Heap.paths_len := 1;
                        Heap.paths_cap := 1; Heap.paths := Heap.Block 1;
                        Heap.buf_len := 1; Heap.buf_cap := 1;
                        Heap.buf := Heap.Block 6 |});
           (1%nat, Heap.obj_paths
                     [ {| Heap.sim := {| Heap.pat := Heap.NULL;
                                         Heap.in_ := Heap.Block 2;
                                         Heap.lastin := Heap.Block 3 |};
                          Heap.Ms := 0; Heap.Me := -1;
                          Heap.Gs := Heap.Block 4;
                          Heap.Ge := Heap.Block 5 |} ]);
           (2%nat, Heap.obj_bools [true]);
           (3%nat, Heap.obj_bools [false]);
           (4%nat, Heap.obj_ints [0]);
           (5%nat, Heap.obj_ints [0]);
           (6%nat, Heap.obj_chars [97]) ];
     Heap.log := [] |}.

(** * Lemmas *)

(** ** The model on the sample patterns *)

Example pat_a_feed :
  cre_sim_feeds 3 {| pat := pat_a; in_ := [true]; lastin := [false] |} [97; 97]
  = Ret ([true; false], {| pat := pat_a; in_ := [false]; lastin := [false] |}).
Proof. reflexivity. Qed.

Example pat_abc_feed :
  fst <$> (s ← cre_sim_init (malloc true 3) (malloc false 3) pat_abc;
           cre_sim_feeds 1 s [97; 98; 99])
  = Ret [false; false; true].
Proof. reflexivity. Qed.

Example pat_a_star_feed :
  cre_sim_feeds 3 {| pat := pat_a_star; in_ := [false; true];
                     lastin := [false; false] |} [97; 97; 98]
  = Ret ([true; true; false],
         {| pat := pat_a_star; in_ := [false; false];
            lastin := [false; true] |}).
Proof. reflexivity. Qed.

Example pat_a_star_reset :
  cre_sim_reset {| pat := pat_a_star; in_ := [false; true];
                   lastin := [true; true] |}
  = Ret {| pat := pat_a_star; in_ := [true; false];
           lastin := [false; false] |}.
Proof. reflexivity. Qed.

(** ** The monad, the arrays and the loops *)

Lemma bind_Ret {A B} (m : res A) (f : A → res B) (b : B) :
  m ≫= f = Ret b → ∃ a, m = Ret a ∧ f a = Ret b.
Proof. destruct m as [a| |]; simpl; [eauto | discriminate..]. Qed.

Lemma load_Ret {A} (a : list A) (i : Z) (x : A) :
  load a i = Ret x ↔ 0 ≤ i ∧ a !! Z.to_nat i = Some x.
Proof.
  unfold load. case_bool_decide as Hi.
  - destruct (a !! Z.to_nat i) eqn:E; split;
      [intros [= ->]; auto | intros [_ [= ->]]; auto
      | discriminate | intros [_ ?]; discriminate].
  - split; [discriminate | intros [? _]; contradiction].
Qed.

Lemma load_in_range {A} (a : list A) (i : Z) :
  0 ≤ i < Z.of_nat (length a) → ∃ x, load a i = Ret x.
Proof.
  intros Hi. destruct (lookup_lt_is_Some_2 a (Z.to_nat i)) as [x Hx]; [lia|].
  exists x. apply load_Ret. split; [lia | done].
Qed.

Lemma store_Ret {A} (a a' : list A) (i : Z) (x : A) :
  store a i x = Ret a' ↔
  0 ≤ i < Z.of_nat (length a) ∧ a' = <[Z.to_nat i := x]> a.
Proof.
  unfold store. case_bool_decide as Hi.
  - split; [intros [= <-]; auto | intros [_ ->]; auto].
  - split; [discriminate | intros [? _]; contradiction].
Qed.

Lemma active_insert_true (a : list bool) (i j : Z) :
  0 ≤ i < Z.of_nat (length a) →
  active (<[Z.to_nat i := true]> a) j ↔ j = i ∨ active a j.
Proof.
  intros Hi. unfold active. destruct (decide (j = i)) as [->|Hne].
  - rewrite list_lookup_insert_eq by lia. intuition lia.
  - destruct (decide (0 ≤ j)).
    + rewrite list_lookup_insert_ne by lia. intuition.
    + intuition lia.
Qed.

(** A loop that keeps an invariant returns, and in a state that has it. *)
Lemma for_range_total {St} (P : Z → St → Prop) (body : Z → St → res St) :
  ∀ (k : nat) (i : Z) (s : St),
    P i s →
    (∀ j t, i ≤ j < i + Z.of_nat k → P j t →
            ∃ t', body j t = Ret t' ∧ P (j + 1) t') →
    ∃ s', for_range k i body s = Ret s' ∧ P (i + Z.of_nat k) s'.
Proof.
  induction k as [|k IH]; intros i s Hs Hbody; simpl.
  - exists s. split; [done|]. by replace (i + Z.of_nat 0) with i by lia.
  - destruct (Hbody i s) as (t & -> & Ht); [lia | done |]. simpl.
    destruct (IH (i + 1) t Ht) as (s' & -> & Hs').
    + intros j t' Hj. apply Hbody. lia.
    + exists s'. split; [done|].
      by replace (i + Z.of_nat (S k)) with (i + 1 + Z.of_nat k) by lia.
Qed.

(** What a loop that returned has established. *)
Lemma for_range_inv {St} (P : Z → St → Prop) (body : Z → St → res St) :
  ∀ (k : nat) (i : Z) (s s' : St),
    for_range k i body s = Ret s' →
    P i s →
    (∀ j t t', i ≤ j < i + Z.of_nat k → P j t → body j t = Ret t' →
               P (j + 1) t') →
    P (i + Z.of_nat k) s'.
Proof.
  induction k as [|k IH]; intros i s s' Hrun Hs Hbody; simpl in Hrun.
  - injection Hrun as <-. by replace (i + Z.of_nat 0) with i by lia.
  - apply bind_Ret in Hrun as (t & Ht & Hrun).
    replace (i + Z.of_nat (S k)) with (i + 1 + Z.of_nat k) by lia.
    apply (IH (i + 1) t s' Hrun).
    + apply (Hbody i s t); [lia | done | done].
    + intros j t1 t2 Hj. apply Hbody. lia.
Qed.

(** ** Patterns *)

Lemma node_at_Some (p : cre_pat) (i : Z) (n : cre_node) :
  node_at p i = Some n ↔ 0 ≤ i < nfa_len p ∧ nfa p !! Z.to_nat i = Some n.
Proof.
  unfold node_at. case_bool_decide; [tauto|].
  split; [discriminate | tauto].
Qed.

Lemma node_at_neg (p : cre_pat) (i : Z) : i < 0 → node_at p i = None.
Proof. intros Hi. unfold node_at. case_bool_decide; [lia | done]. Qed.

Lemma pat_ok_len (p : cre_pat) :
  pat_ok p = true → nfa_len p = Z.of_nat (length (nfa p)).
Proof.
  unfold pat_ok. rewrite !andb_true_iff, !bool_decide_eq_true. tauto.
Qed.

Lemma pat_ok_start (p : cre_pat) :
  pat_ok p = true → 0 ≤ nfa_start p < nfa_len p.
Proof.
  unfold pat_ok. rewrite !andb_true_iff, !bool_decide_eq_true. tauto.
Qed.

Lemma pat_ok_node (p : cre_pat) (i : Z) (n : cre_node) :
  pat_ok p = true → node_at p i = Some n → node_ok p n = true.
Proof.
  unfold pat_ok. rewrite !andb_true_iff, forallb_forall.
  intros [_ Hall] [_ Hn]%node_at_Some. apply Hall.
  apply list_elem_of_In, list_elem_of_lookup. eauto.
Qed.

Lemma pat_ok_node_at (p : cre_pat) (i : Z) :
  pat_ok p = true → 0 ≤ i < nfa_len p → ∃ n, node_at p i = Some n.
Proof.
  intros Hlen%pat_ok_len Hi.
  destruct (lookup_lt_is_Some_2 (nfa p) (Z.to_nat i)) as [n Hn]; [lia|].
  exists n. by apply node_at_Some.
Qed.

Lemma edge_ok_cases (p : cre_pat) (j : Z) :
  edge_ok p j = true → j = -1 ∨ j = -2 ∨ 0 ≤ j < nfa_len p.
Proof.
  unfold edge_ok. rewrite !orb_true_iff, !bool_decide_eq_true. tauto.
Qed.

Lemma node_ok_edges (p : cre_pat) (n : cre_node) :
  node_ok p n = true → edge_ok p (u n) = true ∧ edge_ok p (v n) = true.
Proof. unfold node_ok. rewrite !andb_true_iff. tauto. Qed.

Lemma node_ok_set (p : cre_pat) (n : cre_node) :
  node_ok p n = true → kind n = cre_SET → length (set n) = 256%nat.
Proof.
  unfold node_ok. rewrite !andb_true_iff. intros [_ H] E. rewrite E in H.
  by apply bool_decide_eq_true in H.
Qed.

Lemma eps_ranked_edges (p : cre_pat) (rk : Z → nat) (i : Z) (n : cre_node) :
  eps_ranked p rk = true → node_at p i = Some n → kind n = cre_EPS →
  edge_below rk i (u n) = true ∧ edge_below rk i (v n) = true.
Proof.
  unfold eps_ranked. rewrite forallb_forall.
  intros Hall [Hi Hn]%node_at_Some E.
  specialize (Hall (edge_below rk i (u n) && edge_below rk i (v n))).
  rewrite <- andb_true_iff. apply Hall.
  apply list_elem_of_In, list_elem_of_lookup. exists (Z.to_nat i).
  rewrite list_lookup_imap, Hn. simpl. rewrite E.
  by replace (Z.of_nat (Z.to_nat i)) with i by lia.
Qed.

Lemma edge_below_depth (rk : Z → nat) (i j : Z) :
  0 ≤ i → edge_below rk i j = true → (add_depth rk j < add_depth rk i)%nat.
Proof.
  unfold edge_below, add_depth. rewrite orb_true_iff, !bool_decide_eq_true.
  intros Hi Hj. repeat case_bool_decide; lia.
Qed.

Lemma reaches_accept_eps (p : cre_pat) (i : Z) (n : cre_node) :
  node_at p i = Some n → kind n = cre_EPS →
  reaches_accept p i ↔ reaches_accept p (u n) ∨ reaches_accept p (v n).
Proof.
  intros Hn E. split.
  - inversion 1; subst; [by rewrite node_at_neg in Hn | |];
      simplify_eq; auto.
  - intros [?|?]; [eapply reach_eps_u | eapply reach_eps_v]; eauto.
Qed.

Lemma reaches_accept_set (p : cre_pat) (i : Z) (n : cre_node) :
  node_at p i = Some n → kind n = cre_SET → ¬ reaches_accept p i.
Proof.
  intros Hn E. inversion 1; subst; [by rewrite node_at_neg in Hn | |];
    simplify_eq; congruence.
Qed.

Lemma reaches_accept_no_edge (p : cre_pat) : ¬ reaches_accept p (-1).
Proof. inversion 1; subst; by rewrite node_at_neg in *. Qed.

Lemma closure_reaches_eps (p : cre_pat) (i j : Z) (n : cre_node) :
  node_at p i = Some n → kind n = cre_EPS →
  closure_reaches p i j ↔ closure_reaches p (u n) j ∨ closure_reaches p (v n) j.
Proof.
  intros Hn E. split.
  - inversion 1; subst; simplify_eq; auto; congruence.
  - intros [?|?]; [eapply closure_eps_u | eapply closure_eps_v]; eauto.
Qed.

Lemma closure_reaches_set (p : cre_pat) (i j : Z) (n : cre_node) :
  node_at p i = Some n → kind n = cre_SET → closure_reaches p i j ↔ j = i.
Proof.
  intros Hn E. split.
  - inversion 1; subst; simplify_eq; auto; congruence.
  - intros ->. eapply closure_set; eauto.
Qed.

Lemma closure_reaches_neg (p : cre_pat) (i j : Z) :
  i < 0 → ¬ closure_reaches p i j.
Proof. intros Hi. inversion 1; subst; by rewrite node_at_neg in *. Qed.

Lemma closure_reaches_is_set (p : cre_pat) (i j : Z) :
  closure_reaches p i j → ∃ n, node_at p j = Some n ∧ kind n = cre_SET.
Proof. induction 1; eauto. Qed.

(** ** The closure *)

Ltac inv_bind H :=
  let a := fresh "a" in
  let Ha := fresh "Ha" in
  apply bind_Ret in H as (a & Ha & H).

(** What a call of [cre_sim_add_] that returned has done: the pattern and
    [lastin] are untouched, the flag tells whether accept is reachable,
    and [in] has gained exactly the byte-matching nodes of the closure. *)
Lemma cre_sim_add_spec (fuel : nat) :
  ∀ (s : cre_sim) (i : Z) (r : bool) (s' : cre_sim),
    cre_sim_add_ fuel s i = Ret (r, s') →
    pat s' = pat s ∧ lastin s' = lastin s ∧
    length (in_ s') = length (in_ s) ∧
    (r = true ↔ reaches_accept (pat s) i) ∧
    (∀ j, active (in_ s') j ↔ active (in_ s) j ∨ closure_reaches (pat s) i j).
Proof.
  induction fuel as [|fuel IH]; intros s i r s' Hrun; simpl in Hrun;
    [discriminate|].
  case_bool_decide as H1.
  { injection Hrun as <- <-. subst i. split_and!; try done.
    - split; [done|]. intros Hx. by apply reaches_accept_no_edge in Hx.
    - intros j. split; [auto|]. intros [Hx|Hy]; [done|].
      by apply closure_reaches_neg in Hy. }
  case_bool_decide as H2.
  { injection Hrun as <- <-. subst i. split_and!; try done.
    - split; [constructor | done].
    - intros j. split; [auto|]. intros [Hx|Hy]; [done|].
      by apply closure_reaches_neg in Hy. }
  case_bool_decide as H3; simpl in Hrun; [|discriminate].
  case_bool_decide as H4; simpl in Hrun; [|discriminate].
  inv_bind Hrun. rename a into n.
  apply load_Ret in Ha as [_ Hn].
  assert (node_at (pat s) i = Some n) as Hnode by (by apply node_at_Some).
  destruct (kind n) eqn:E.
  - inv_bind Hrun. destruct a as [r1 s1].
    inv_bind Hrun. destruct a as [r2 s2].
    injection Hrun as <- <-.
    apply IH in Ha as (Hp1 & Hl1 & Hlen1 & Hr1 & Hin1).
    apply IH in Ha0 as (Hp2 & Hl2 & Hlen2 & Hr2 & Hin2).
    rewrite Hp1 in *.
    split_and!; try congruence.
    + rewrite orb_true_iff, Hr1, Hr2. symmetry. by apply reaches_accept_eps.
    + intros j.
      rewrite Hin2, Hin1, (closure_reaches_eps _ _ _ _ Hnode E). tauto.
  - inv_bind Hrun. apply store_Ret in Ha as [Hi ->].
    injection Hrun as <- <-. simpl.
    split_and!; try done.
    + by rewrite length_insert.
    + split; [done|]. intros Hx. by eapply reaches_accept_set in Hx.
    + intros j.
      rewrite active_insert_true, (closure_reaches_set _ _ _ _ Hnode E) by done.
      tauto.
Qed.

(** On a pattern whose epsilon nodes form no cycle, [cre_sim_add_] returns
    as soon as the budget exceeds the depth of the edge. *)
Lemma cre_sim_add_total (rk : Z → nat) (fuel : nat) :
  ∀ (s : cre_sim) (i : Z),
    pat_ok (pat s) = true → eps_ranked (pat s) rk = true →
    Z.of_nat (length (in_ s)) = nfa_len (pat s) →
    edge_ok (pat s) i = true →
    (add_depth rk i < fuel)%nat →
    ∃ r s', cre_sim_add_ fuel s i = Ret (r, s').
Proof.
  induction fuel as [|fuel IH]; intros s i Hok Hrk Hlen Hedge Hfuel; [lia|].
  simpl. case_bool_decide; [eauto|]. case_bool_decide; [eauto|].
  apply edge_ok_cases in Hedge as [?|[?|Hi]]; [done..|].
  rewrite !bool_decide_eq_true_2 by lia. simpl.
  destruct (pat_ok_node_at _ i Hok Hi) as [n Hn].
  pose proof Hn as [_ Hload]%node_at_Some.
  assert (load (nfa (pat s)) i = Ret n) as -> by (apply load_Ret; split; [lia|done]).
  simpl. pose proof (pat_ok_node _ _ _ Hok Hn) as [Hu Hv]%node_ok_edges.
  destruct (kind n) eqn:E.
  - destruct (eps_ranked_edges _ _ _ _ Hrk Hn E) as [Hbu Hbv].
    apply edge_below_depth in Hbu; [|lia].
    apply edge_below_depth in Hbv; [|lia].
    destruct (IH s (u n)) as (r1 & s1 & H1); [done..|lia|].
    rewrite H1. simpl.
    apply cre_sim_add_spec in H1 as (Hp1 & _ & Hlen1 & _).
    destruct (IH s1 (v n)) as (r2 & s2 & H2); try (rewrite ?Hp1; done);
      [congruence | lia |].
    rewrite H2. simpl. eauto.
  - destruct (store (in_ s) i true) as [a| |] eqn:Hst; simpl; [eauto|..];
      unfold store in Hst; rewrite bool_decide_eq_true_2 in Hst by lia;
      discriminate.
Qed.

(** ** [cre_sim_reset] *)

Lemma all_false_replicate (a : list bool) (n : nat) :
  length a = n → (∀ x, (x < n)%nat → a !! x = Some false) →
  a = replicate n false.
Proof.
  intros Hlen Hall. apply list_eq. intros x.
  destruct (decide (x < n)%nat) as [Hx|Hx].
  - by rewrite Hall, lookup_replicate_2.
  - rewrite !lookup_ge_None_2; [done | rewrite length_replicate; lia | lia].
Qed.

Lemma sim_ok_parts (s : cre_sim) :
  sim_ok s = true →
  pat_ok (pat s) = true ∧
  Z.of_nat (length (in_ s)) = nfa_len (pat s) ∧
  Z.of_nat (length (lastin s)) = nfa_len (pat s).
Proof.
  unfold sim_ok. rewrite !andb_true_iff, !bool_decide_eq_true. tauto.
Qed.

Lemma cre_sim_reset_spec (s : cre_sim) :
  sim_ok s = true → cre_sim_reset s = Ret (reset_state (pat s)).
Proof.
  intros (Hok & Hin & Hlast)%sim_ok_parts.
  pose proof (pat_ok_start _ Hok) as Hstart.
  unfold cre_sim_reset, for_upto.
  set (body := λ (i : Z) (s : cre_sim), _).
  destruct (for_range_total
    (λ j t, pat t = pat s ∧ length (in_ t) = length (in_ s) ∧
            length (lastin t) = length (lastin s) ∧
            ∀ x, Z.of_nat x < j →
                 in_ t !! x = Some false ∧ lastin t !! x = Some false)
    body (Z.to_nat (nfa_len (pat s))) 0 s) as (t & -> & Ht).
  - split_and!; try done. intros x Hx. lia.
  - intros j t Hj (Hp & Hl1 & Hl2 & Hclr). subst body. simpl.
    unfold store. rewrite !bool_decide_eq_true_2 by lia. simpl.
    eexists. split; [done|]. simpl. rewrite !length_insert.
    split_and!; try done. intros x Hx.
    destruct (decide (x = Z.to_nat j)) as [->|Hne].
    + rewrite !list_lookup_insert_eq by lia. done.
    + rewrite !list_lookup_insert_ne by lia. apply Hclr. lia.
  - destruct Ht as (Hp & Hl1 & Hl2 & Hclr). simpl.
    unfold store. rewrite Hp, bool_decide_eq_true_2 by lia. simpl.
    unfold sim_set_in, reset_state. destruct t as [tp tin tlast]. simpl in *.
    subst tp.
    assert (tin = replicate (Z.to_nat (nfa_len (pat s))) false) as ->.
    { apply all_false_replicate; [lia|]. intros x Hx. apply Hclr. lia. }
    assert (tlast = replicate (Z.to_nat (nfa_len (pat s))) false) as ->.
    { apply all_false_replicate; [lia|]. intros x Hx. apply Hclr. lia. }
    done.
Qed.

Lemma active_replicate_false (n : nat) (i : Z) :
  ¬ active (replicate n false) i.
Proof. intros [_ H]. apply lookup_replicate in H as [? _]. done. Qed.

Lemma active_reset_state (p : cre_pat) (i : Z) :
  0 ≤ nfa_start p < nfa_len p →
  active (in_ (reset_state p)) i ↔ i = nfa_start p.
Proof.
  intros Hs. simpl. rewrite active_insert_true by (rewrite length_replicate; lia).
  split; [intros [?|H]; [done|] | auto].
  by apply active_replicate_false in H.
Qed.

(** ** [cre_sim_feedc] *)

Lemma accepts_on_fires (s : cre_sim) (c : Z) :
  accepts_on s c ↔
  ∃ i n, fires s c i n ∧
         (reaches_accept (pat s) (u n) ∨ reaches_accept (pat s) (v n)).
Proof.
  unfold accepts_on, fires.
  split; intros (i & n & H); exists i, n; tauto.
Qed.

Lemma fires_below_next (s : cre_sim) (c j : Z) (Q : cre_node → Prop) :
  (∃ i n, i < j + 1 ∧ fires s c i n ∧ Q n) ↔
  (∃ i n, i < j ∧ fires s c i n ∧ Q n) ∨ (∃ n, fires s c j n ∧ Q n).
Proof.
  split.
  - intros (i & n & Hi & Hf & HQ). destruct (decide (i = j)) as [->|Hne].
    + right. eauto.
    + left. exists i, n. split_and!; [lia | done..].
  - intros [(i & n & Hi & Hf & HQ)|(n & Hf & HQ)].
    + exists i, n. split_and!; [lia | done..].
    + exists j, n. split_and!; [lia | done..].
Qed.

Lemma fires_below_skip (s : cre_sim) (c j : Z) (Q : cre_node → Prop) :
  (∀ n, ¬ fires s c j n) →
  (∃ i n, i < j + 1 ∧ fires s c i n ∧ Q n) ↔
  (∃ i n, i < j ∧ fires s c i n ∧ Q n).
Proof.
  intros Hno. rewrite fires_below_next.
  split; [intros [?|(n & Hf & _)]; [done | by apply Hno in Hf] | auto].
Qed.

Lemma fires_below_hit (s : cre_sim) (c j : Z) (n : cre_node)
      (Q : cre_node → Prop) :
  fires s c j n →
  (∃ i n, i < j + 1 ∧ fires s c i n ∧ Q n) ↔
  (∃ i n, i < j ∧ fires s c i n ∧ Q n) ∨ Q n.
Proof.
  intros Hf. rewrite fires_below_next. split.
  - intros [?|(n' & Hf' & HQ)]; [auto|]. right.
    destruct Hf as (_ & Hn & _), Hf' as (_ & Hn' & _). congruence.
  - intros [?|?]; eauto.
Qed.

Lemma cre_sim_feedc_unfold (fuel : nat) (s : cre_sim) (c : Z) :
  cre_sim_feedc fuel s c =
  (s1 ← for_upto (nfa_len (pat s)) (λ i s,
          a ← store (in_ s) i false; Ret (sim_set_in s a))
        {| pat := pat s; in_ := lastin s; lastin := in_ s |};
   for_upto (nfa_len (pat s1)) (feedc_scan fuel c) (false, s1)).
Proof. reflexivity. Qed.

(** One round of the scan: either node [j] fires, and the closure of both
    its edges is added, or nothing changes. *)
Lemma feedc_scan_spec (fuel : nat) (s0 : cre_sim) (c j : Z)
      (r r' : bool) (t t' : cre_sim) :
  0 ≤ j < nfa_len (pat s0) → pat t = pat s0 → lastin t = in_ s0 →
  feedc_scan fuel c j (r, t) = Ret (r', t') →
  pat t' = pat s0 ∧ lastin t' = in_ s0 ∧
  length (in_ t') = length (in_ t) ∧
  ((∃ n, fires s0 c j n ∧
         (r' = true ↔ r = true ∨ reaches_accept (pat s0) (u n)
                      ∨ reaches_accept (pat s0) (v n)) ∧
         (∀ x, active (in_ t') x ↔
               active (in_ t) x ∨ closure_reaches (pat s0) (u n) x
               ∨ closure_reaches (pat s0) (v n) x))
   ∨ ((∀ n, ¬ fires s0 c j n) ∧ r' = r ∧ t' = t)).
Proof.
  intros Hj Hp Hl Hrun. unfold feedc_scan in Hrun.
  inv_bind Hrun. rename a into act.
  apply load_Ret in Ha as [_ Hact]. rewrite Hl in Hact.
  destruct act; cycle 1.
  { injection Hrun as <- <-. split_and!; try done. right.
    split; [|done]. intros n ([_ Hx] & _). congruence. }
  inv_bind Hrun. rename a into n. apply load_Ret in Ha as [_ Hn].
  rewrite Hp in Hn.
  assert (node_at (pat s0) j = Some n) as Hnode by (by apply node_at_Some).
  inv_bind Hrun. rename a into valid.
  assert (valid = true → fires s0 c j n) as Hfire.
  { intros ->. destruct (kind n) eqn:E; [discriminate|].
    apply load_Ret in Ha as [Hc0 Hc]. unfold fires, active.
    split_and!; try done; lia. }
  destruct valid; cycle 1.
  { injection Hrun as <- <-. split_and!; try done. right.
    split; [|done]. intros n' (_ & Hn' & E & Hc).
    assert (n' = n) as -> by congruence. rewrite E in Ha.
    apply load_Ret in Ha as [_ Hx]. destruct Hc as [_ Hc]. congruence. }
  specialize (Hfire eq_refl).
  inv_bind Hrun. destruct a as [r1 t1].
  inv_bind Hrun. destruct a as [r2 t2]. injection Hrun as <- <-.
  apply cre_sim_add_spec in Ha0 as (Hp1 & Hl1 & Hlen1 & Hr1 & Hin1).
  apply cre_sim_add_spec in Ha1 as (Hp2 & Hl2 & Hlen2 & Hr2 & Hin2).
  rewrite Hp1, Hp in *.
  split_and!; try congruence. left. exists n. split_and!; [done| |].
  - rewrite !orb_true_iff, Hr1, Hr2. tauto.
  - intros x. rewrite Hin2, Hin1. tauto.
Qed.

(** What a call of [cre_sim_feedc] that returned has done: the buffers
    have changed roles, the flag tells whether accept was reached from a
    node that fired, and the new active set is the closure of the edges
    of the nodes that fired. *)
Lemma cre_sim_feedc_spec (fuel : nat) (s : cre_sim) (c : Z)
      (r : bool) (s' : cre_sim) :
  cre_sim_feedc fuel s c = Ret (r, s') →
  pat s' = pat s ∧ lastin s' = in_ s ∧
  length (in_ s') = length (lastin s) ∧
  (r = true ↔ accepts_on s c) ∧
  (Z.of_nat (length (lastin s)) ≤ nfa_len (pat s) →
   ∀ j, active (in_ s') j ↔ steps_to s c j).
Proof.
  rewrite cre_sim_feedc_unfold. intros Hrun.
  inv_bind Hrun. rename a into s1. unfold for_upto in Ha, Hrun.
  apply (for_range_inv
    (λ j t, pat t = pat s ∧ lastin t = in_ s ∧
            length (in_ t) = length (lastin s) ∧
            ∀ x, Z.of_nat x < j → in_ t !! x = Some false)) in Ha; cycle 1.
  { simpl. split_and!; try done. intros x Hx. lia. }
  { intros j t t' Hj (Hp & Hl & Hlen & Hclr) Hbody.
    inv_bind Hbody. apply store_Ret in Ha0 as [Hr ->].
    injection Hbody as <-. simpl. rewrite length_insert.
    split_and!; try done. intros x Hx.
    destruct (decide (x = Z.to_nat j)) as [->|Hne].
    - by rewrite list_lookup_insert_eq by lia.
    - rewrite list_lookup_insert_ne by lia. apply Hclr. lia. }
  destruct Ha as (Hp1 & Hl1 & Hlen1 & Hclr). rewrite Hp1 in Hrun.
  assert (Z.of_nat (length (lastin s)) ≤ nfa_len (pat s) →
          ∀ x, ¬ active (in_ s1) x) as Hclear.
  { intros Hle x [Hx0 Hx].
    pose proof (lookup_lt_Some _ _ _ Hx) as Hlt.
    rewrite Hclr in Hx by lia. done. }
  apply (for_range_inv
    (λ j rt, pat rt.2 = pat s ∧ lastin rt.2 = in_ s ∧
             length (in_ rt.2) = length (lastin s) ∧
             (rt.1 = true ↔
              ∃ i n, i < j ∧ fires s c i n ∧
                (reaches_accept (pat s) (u n) ∨ reaches_accept (pat s) (v n))) ∧
             (∀ x, active (in_ rt.2) x ↔
               active (in_ s1) x ∨
               ∃ i n, i < j ∧ fires s c i n ∧
                 (closure_reaches (pat s) (u n) x
                  ∨ closure_reaches (pat s) (v n) x)))) in Hrun; cycle 1.
  { simpl. split_and!; try done.
    - split; [done|]. intros (i & n & Hi & ([Hi0 _] & _) & _). lia.
    - intros x. split; [auto|].
      intros [?|(i & n & Hi & ([Hi0 _] & _) & _)]; [done | lia]. }
  { intros j [r0 t] [r' t'] Hj (Hp & Hl & Hlen & Hr & Hin) Hbody.
    simpl in *.
    apply (feedc_scan_spec _ s) in Hbody
      as (Hp' & Hl' & Hlen' & Hcase); [|lia|done..].
    split_and!; try congruence.
    - destruct Hcase as [(n & Hf & Hr' & _)|(Hno & -> & ->)].
      + rewrite (fires_below_hit _ _ _ _ _ Hf), Hr', Hr. tauto.
      + by rewrite (fires_below_skip _ _ _ _ Hno).
    - intros x. destruct Hcase as [(n & Hf & _ & Hin')|(Hno & -> & ->)].
      + rewrite (fires_below_hit _ _ _ _ _ Hf), Hin', Hin. tauto.
      + by rewrite (fires_below_skip _ _ _ _ Hno). }
  simpl in Hrun. destruct Hrun as (Hp & Hl & Hlen & Hr & Hin).
  assert (∀ Q : cre_node → Prop,
    (∃ i n, i < 0 + Z.of_nat (Z.to_nat (nfa_len (pat s))) ∧ fires s c i n ∧ Q n)
    ↔ (∃ i n, fires s c i n ∧ Q n)) as Hall.
  { intros Q. split; intros (i & n & H); [exists i, n; tauto|].
    exists i, n. destruct H as [Hf HQ]. split_and!; try done.
    destruct Hf as (_ & [Hi _]%node_at_Some & _). lia. }
  split_and!; try done.
  - by rewrite Hr, Hall, accepts_on_fires.
  - intros Hle j. rewrite Hin, Hall. unfold steps_to.
    split; [intros [Hx|?]; [by apply Hclear in Hx | done] | auto].
Qed.

Lemma add_depth_bound (p : cre_pat) (rk : Z → nat) (j : Z) :
  edge_ok p j = true → (add_depth rk j < closure_fuel p rk)%nat.
Proof.
  intros Hj. unfold add_depth, closure_fuel. case_bool_decide; [lia|].
  apply edge_ok_cases in Hj as [?|[?|Hj]]; [lia..|].
  apply Nat.lt_succ_r, max_list_elem_of_le.
  apply list_elem_of_fmap. exists j. split; [done|].
  apply elem_of_seqZ. lia.
Qed.

Lemma feedc_scan_total (rk : Z → nat) (fuel : nat) (c j : Z)
      (r : bool) (t : cre_sim) :
  pat_ok (pat t) = true → eps_ranked (pat t) rk = true →
  Z.of_nat (length (in_ t)) = nfa_len (pat t) →
  Z.of_nat (length (lastin t)) = nfa_len (pat t) →
  0 ≤ c < 256 → (closure_fuel (pat t) rk ≤ fuel)%nat →
  0 ≤ j < nfa_len (pat t) →
  ∃ r' t', feedc_scan fuel c j (r, t) = Ret (r', t') ∧
           pat t' = pat t ∧ lastin t' = lastin t ∧
           length (in_ t') = length (in_ t).
Proof.
  intros Hok Hrk Hin Hlast Hc Hfuel Hj. unfold feedc_scan.
  destruct (load_in_range (lastin t) j) as [act ->]; [lia|]. simpl.
  destruct act; [|eauto 10].
  destruct (pat_ok_node_at _ j Hok Hj) as [n Hn].
  pose proof Hn as [_ Hload]%node_at_Some.
  assert (load (nfa (pat t)) j = Ret n) as ->
    by (apply load_Ret; split; [lia|done]).
  simpl. pose proof (pat_ok_node _ _ _ Hok Hn) as Hnok.
  pose proof Hnok as [Hu Hv]%node_ok_edges.
  assert (∃ valid, match kind n with
                   | cre_SET => load (set n) c
                   | cre_EPS => Ret false
                   end = Ret valid) as [valid ->].
  { destruct (kind n) eqn:E; [eauto|]. apply load_in_range.
    rewrite (node_ok_set _ _ Hnok E). lia. }
  simpl. destruct valid; [|eauto 10].
  destruct (cre_sim_add_total rk fuel t (u n)) as (r1 & t1 & H1); [done..| |].
  { pose proof (add_depth_bound _ rk _ Hu). lia. }
  rewrite H1. simpl.
  apply cre_sim_add_spec in H1 as (Hp1 & Hl1 & Hlen1 & _).
  destruct (cre_sim_add_total rk fuel t1 (v n)) as (r2 & t2 & H2);
    try (rewrite ?Hp1; done); [congruence | |].
  { pose proof (add_depth_bound _ rk _ Hv). lia. }
  rewrite H2. simpl.
  apply cre_sim_add_spec in H2 as (Hp2 & Hl2 & Hlen2 & _).
  eexists _, _. split; [done|]. split_and!; congruence.
Qed.

(** On a well-formed simulator whose pattern has no epsilon cycle,
    [cre_sim_feedc] returns for every table index [c], once the budget
    covers the depth of the closure. *)
Lemma cre_sim_feedc_total (rk : Z → nat) (fuel : nat) (s : cre_sim) (c : Z) :
  sim_ok s = true → eps_ranked (pat s) rk = true → 0 ≤ c < 256 →
  (closure_fuel (pat s) rk ≤ fuel)%nat →
  ∃ r s', cre_sim_feedc fuel s c = Ret (r, s').
Proof.
  intros (Hok & Hin & Hlast)%sim_ok_parts Hrk Hc Hfuel.
  rewrite cre_sim_feedc_unfold. unfold for_upto.
  set (body := λ (i : Z) (s : cre_sim), _).
  destruct (for_range_total
    (λ j t, pat t = pat s ∧ lastin t = in_ s ∧
            length (in_ t) = length (lastin s))
    body (Z.to_nat (nfa_len (pat s))) 0
    {| pat := pat s; in_ := lastin s; lastin := in_ s |})
    as (s1 & -> & Hp1 & Hl1 & Hlen1); [done| |].
  { intros j t Hj (Hp & Hl & Hlen). subst body. simpl.
    unfold store. rewrite bool_decide_eq_true_2 by lia. simpl.
    eexists. split; [done|]. simpl. by rewrite length_insert. }
  simpl. rewrite Hp1.
  destruct (for_range_total
    (λ j rt, pat rt.2 = pat s ∧ lastin rt.2 = in_ s ∧
             length (in_ rt.2) = length (lastin s))
    (feedc_scan fuel c) (Z.to_nat (nfa_len (pat s))) 0 (false, s1))
    as ([r s'] & -> & _); [done| |eauto].
  intros j [r t] Hj (Hp & Hl & Hlen). simpl in Hp, Hl, Hlen.
  destruct (feedc_scan_total rk fuel c j r t)
    as (r' & t' & -> & Hp' & Hl' & Hlen'); try (rewrite ?Hp; done);
    [rewrite Hp; lia | rewrite Hp, Hl; lia | rewrite Hp; lia |].
  exists (r', t'). split; [done|]. simpl. split_and!; congruence.
Qed.

(** ** Sequences of feeds *)

Lemma sim_ok_intro (s : cre_sim) :
  pat_ok (pat s) = true →
  Z.of_nat (length (in_ s)) = nfa_len (pat s) →
  Z.of_nat (length (lastin s)) = nfa_len (pat s) →
  sim_ok s = true.
Proof.
  intros H1 H2 H3. unfold sim_ok.
  by rewrite H1, !bool_decide_eq_true_2.
Qed.

Lemma cre_sim_feedc_ok (fuel : nat) (s : cre_sim) (c : Z)
      (r : bool) (s' : cre_sim) :
  sim_ok s = true → cre_sim_feedc fuel s c = Ret (r, s') →
  sim_ok s' = true ∧ pat s' = pat s.
Proof.
  intros (Hok & Hin & Hlast)%sim_ok_parts
         (Hp & Hl & Hlen & _)%cre_sim_feedc_spec.
  split; [|done]. apply sim_ok_intro; rewrite Hp; [done|lia|].
  by rewrite Hl.
Qed.

Lemma cre_sim_feeds_ok (fuel : nat) (cs : list Z) :
  ∀ (s : cre_sim) (rs : list bool) (s' : cre_sim),
    sim_ok s = true → cre_sim_feeds fuel s cs = Ret (rs, s') →
    sim_ok s' = true ∧ pat s' = pat s.
Proof.
  induction cs as [|c cs IH]; intros s rs s' Hok Hrun; simpl in Hrun.
  - by injection Hrun as <- <-.
  - inv_bind Hrun. destruct a as [r s1].
    inv_bind Hrun. destruct a as [rs1 s2]. injection Hrun as <- <-.
    apply (cre_sim_feedc_ok _ _ _ _ _ Hok) in Ha as [Hok1 Hp1].
    apply (IH _ _ _ Hok1) in Ha0 as [Hok2 Hp2].
    split; [done | congruence].
Qed.

Lemma sim_ok_reset_state (p : cre_pat) :
  pat_ok p = true → sim_ok (reset_state p) = true.
Proof.
  intros Hok. pose proof (pat_ok_start _ Hok).
  apply sim_ok_intro; simpl; [done|..];
    rewrite ?length_insert, length_replicate; lia.
Qed.

(** After a feed no epsilon node is active. *)
Lemma cre_sim_feedc_no_eps_active (fuel : nat) (s : cre_sim) (c : Z)
      (r : bool) (s' : cre_sim) :
  sim_ok s = true → cre_sim_feedc fuel s c = Ret (r, s') →
  no_eps_active (pat s') (in_ s').
Proof.
  intros (Hok & Hin & Hlast)%sim_ok_parts
         (Hp & Hl & Hlen & _ & Hact)%cre_sim_feedc_spec.
  intros j n Hj Hn. apply Hact in Hj as (i & m & _ & Hcl); [|lia].
  rewrite Hp in Hn.
  destruct Hcl as [Hcl|Hcl];
    apply closure_reaches_is_set in Hcl as (n' & Hn' & E); congruence.
Qed.

Example sim_a_star_ok : sim_ok sim_a_star = true.
Proof. reflexivity. Qed.

Example sim_a_star_ranked : eps_ranked pat_a_star rk_a_star = true.
Proof. reflexivity. Qed.

Example sim_b_a_star_star_ok : sim_ok sim_b_a_star_star = true.
Proof. reflexivity. Qed.

(** ** The closure on a cycle of epsilon nodes *)

(** The equations of [cre_sim_add_] at a node. *)
Lemma cre_sim_add_eps (fuel : nat) (s : cre_sim) (i : Z) (n : cre_node) :
  node_at (pat s) i = Some n → kind n = cre_EPS →
  cre_sim_add_ (S fuel) s i =
  ('(r1, s) ← cre_sim_add_ fuel s (u n);
   '(r2, s) ← cre_sim_add_ fuel s (v n);
   Ret (r1 || r2, s)).
Proof.
  intros [Hi Hn]%node_at_Some E. simpl.
  rewrite !bool_decide_eq_false_2 by lia.
  rewrite !bool_decide_eq_true_2 by lia. simpl.
  assert (load (nfa (pat s)) i = Ret n) as ->
    by (apply load_Ret; split; [lia|done]).
  simpl. by rewrite E.
Qed.

Lemma cre_sim_add_set (fuel : nat) (s : cre_sim) (i : Z) (n : cre_node) :
  node_at (pat s) i = Some n → kind n = cre_SET →
  cre_sim_add_ (S fuel) s i =
  (a ← store (in_ s) i true; Ret (false, sim_set_in s a)).
Proof.
  intros [Hi Hn]%node_at_Some E. simpl.
  rewrite !bool_decide_eq_false_2 by lia.
  rewrite !bool_decide_eq_true_2 by lia. simpl.
  assert (load (nfa (pat s)) i = Ret n) as ->
    by (apply load_Ret; split; [lia|done]).
  simpl. by rewrite E.
Qed.

(** On the cycle of the two split nodes the closure exhausts every
    budget. *)
Lemma cre_sim_add_cycle (fuel : nat) :
  ∀ s : cre_sim,
    pat s = pat_b_a_star_star → length (in_ s) = 4%nat →
    cre_sim_add_ fuel s 2 = NoFuel ∧ cre_sim_add_ fuel s 3 = NoFuel.
Proof.
  induction fuel as [|fuel IH]; intros s Hp Hlen; [done|].
  split.
  - erewrite cre_sim_add_eps; [|by rewrite Hp|done]. simpl.
    destruct (cre_sim_add_ fuel s 1) as [[r1 s1]| |] eqn:H1; [| |done].
    + apply cre_sim_add_spec in H1 as (Hp1 & _ & Hlen1 & _). simpl.
      destruct (IH s1) as [_ ->]; [congruence..|done].
    + destruct fuel as [|fuel]; [done|].
      erewrite cre_sim_add_set in H1; [|by rewrite Hp|done].
      unfold store in H1. rewrite bool_decide_eq_true_2 in H1 by lia.
      done.
  - erewrite cre_sim_add_eps; [|by rewrite Hp|done]. simpl.
    destruct (IH s Hp Hlen) as [-> _]. done.
Qed.

Lemma cre_sim_feedc_cycle (fuel : nat) :
  cre_sim_feedc fuel sim_b_a_star_star 98 = NoFuel.
Proof.
  rewrite cre_sim_feedc_unfold. unfold for_upto, sim_b_a_star_star.
  simpl.
  match goal with
  | |- context [cre_sim_add_ fuel ?s 3] =>
    destruct (cre_sim_add_cycle fuel s) as [_ ->]; [done..|]
  end.
  done.
Qed.

(** ** The [char] argument and the iterator *)

(** The [char] argument a byte becomes is a table index where [char] is
    unsigned, and is negative for the upper half of the bytes where it is
    signed. *)
Lemma char_of_byte_unsigned (b : Z) :
  0 ≤ b < 256 → 0 ≤ char_of_byte false b < 256.
Proof. unfold char_of_byte. simpl. lia. Qed.

Lemma char_of_byte_signed_high (b : Z) :
  128 ≤ b < 256 → -128 ≤ char_of_byte true b < 0.
Proof.
  intros Hb. unfold char_of_byte. simpl.
  rewrite bool_decide_eq_true_2 by lia. lia.
Qed.

(** With no path in use the loop of [cre_iter_feedc] is not entered. *)
Lemma cre_iter_feedc_idle (jb : bool) (ji : Z) (fuel : nat)
      (it : cre_iter) (c : Z) :
  paths_len it ≤ 0 → cre_iter_feedc jb ji fuel it c = Ret it.
Proof.
  intros Hlen. unfold cre_iter_feedc.
  destruct fuel; simpl; by rewrite bool_decide_eq_false_2 by lia.
Qed.

Lemma cre_iter_feeds_idle (jb : bool) (ji : Z) (fuel : nat)
      (it : cre_iter) (cs : list Z) :
  paths_len it ≤ 0 → cre_iter_feeds jb ji fuel it cs = Ret it.
Proof.
  intros Hlen. induction cs as [|c cs IH]; [done|].
  simpl. by rewrite cre_iter_feedc_idle.
Qed.

(** Two iterators over one pattern with no path in use and no byte
    retained go through the same views, whatever is called on them. *)
Lemma iter_run_idle (jb : bool) (ji : Z) (fuel : nat) (ops : list iter_op) :
  ∀ it1 it2 : cre_iter,
    iter_pat it1 = iter_pat it2 →
    paths_len it1 = 0 → paths_len it2 = 0 →
    buf_len it1 = 0 → buf_len it2 = 0 →
    iter_run jb ji fuel it1 ops = iter_run jb ji fuel it2 ops ∧
    returns (iter_run jb ji fuel it1 ops) = true.
Proof.
  induction ops as [|o ops IH]; intros it1 it2 Hp Hl1 Hl2 Hb1 Hb2; [done|].
  destruct o as [c|]; simpl.
  - rewrite !cre_iter_feedc_idle by lia. simpl.
    destruct (IH it1 it2) as [-> Hret]; [done..|].
    destruct (iter_run jb ji fuel it2 ops); [|done..]. simpl.
    unfold iter_view, iter_live. by rewrite Hp, Hl1, Hl2, Hb1, Hb2.
  - destruct (IH (cre_iter_reset it1) (cre_iter_reset it2)) as [-> Hret];
      [done..|].
    destruct (iter_run jb ji fuel (cre_iter_reset it2) ops); [|done..].
    simpl. unfold iter_view, iter_live. simpl. by rewrite Hp.
Qed.

(** * The properties *)

(** C1, on the iterator as [cre_iter_init] leaves it: [cre_iter_feedc]
    changes nothing, for any byte, so no path starts at the current
    offset, where the specification asks for exactly one. *)
Theorem cre_iter_feedc_fresh_spawns_nothing
        (jb : bool) (ji : Z) (fuel : nat) (it0 : cre_iter) (p : cre_pat)
        (c : Z) :
  let it := cre_iter_init it0 p in
  cre_iter_feedc jb ji fuel it c = Ret it ∧
  paths_len it = 0 ∧ anchored_at it (buf_len it) = [].
Proof. simpl. split; [by apply cre_iter_feedc_idle | done]. Qed.

(** C2, on an iterator over [a] whose one path is fed [a]: the path
    matches, runs out of active states, and stays in use with its match
    end set, where the specification asks for the match to be handed out
    and the path to be dropped; no other field of the iterator changes. *)
Theorem cre_iter_feedc_keeps_dead_path (jb : bool) (ji : Z) (fuel : nat) :
  ∃ it q,
    cre_iter_feedc jb ji (3 + fuel) iter_a_one_path 97 = Ret it ∧
    iter_live it !! 0%nat = Some q ∧
    Ms q = 0 ∧ Me q = 0 ∧ in_ (sim q) = [false] ∧
    paths_len it = 2 ∧ buf_len it = 0 ∧ buf it = [].
Proof. eexists _, _. split; [reflexivity|]. done. Qed.

(** C3, as the code has it: on a well-formed simulator whose pattern has
    no epsilon cycle, [cre_sim_feedc] returns true, for some budget,
    exactly when some node that was active matches the byte and one of its
    two edges leads to accept through the closure; for a table index it
    returns, true or false accordingly, for every budget from
    [closure_fuel] on.  On any simulator, a call that returns gives true
    exactly in that case. *)
Theorem cre_sim_feedc_accept (rk : Z → nat) (s : cre_sim) (c : Z) :
  (∀ fuel r s', cre_sim_feedc fuel s c = Ret (r, s') →
                (r = true ↔ accepts_on s c)) ∧
  (sim_ok s = true → eps_ranked (pat s) rk = true →
   (accepts_on s c ↔ ∃ fuel s', cre_sim_feedc fuel s c = Ret (true, s')) ∧
   (0 ≤ c < 256 →
    ∀ fuel, (closure_fuel (pat s) rk ≤ fuel)%nat →
            ∃ r s', cre_sim_feedc fuel s c = Ret (r, s') ∧
                    (r = true ↔ accepts_on s c))).
Proof.
  assert (∀ fuel r s', cre_sim_feedc fuel s c = Ret (r, s') →
                       (r = true ↔ accepts_on s c)) as Hpartial.
  { intros fuel r s' Hrun.
    by apply cre_sim_feedc_spec in Hrun as (_&_&_&?&_). }
  split; [done|]. intros Hok Hrk.
  assert (0 ≤ c < 256 →
          ∀ fuel, (closure_fuel (pat s) rk ≤ fuel)%nat →
                  ∃ r s', cre_sim_feedc fuel s c = Ret (r, s') ∧
                          (r = true ↔ accepts_on s c)) as Htotal.
  { intros Hc fuel Hfuel.
    destruct (cre_sim_feedc_total rk fuel s c) as (r & s' & Hrun); [done..|].
    exists r, s'. split; [done|]. by eapply Hpartial. }
  split; [|done]. split.
  - intros Hacc. pose proof Hacc as (i & n & _ & Hn & E & [Hc0 Hc] & _).
    apply sim_ok_parts in Hok as (Hpok & _).
    pose proof (node_ok_set _ _ (pat_ok_node _ _ _ Hpok Hn) E) as Hlen.
    apply lookup_lt_Some in Hc.
    destruct (Htotal ltac:(lia) (closure_fuel (pat s) rk) ltac:(lia))
      as (r & s' & Hrun & Hr).
    exists (closure_fuel (pat s) rk), s'.
    by rewrite (proj2 Hr Hacc) in Hrun.
  - intros (fuel & s' & Hrun). by apply (Hpartial _ _ _ Hrun).
Qed.

Lemma cre_sim_feedc_accept_witness :
  sim_ok sim_a_star_fed = true ∧
  eps_ranked (pat sim_a_star_fed) rk_a_star = true ∧
  0 ≤ 97 < 256 ∧
  cre_sim_feedc 3 sim_a_star_fed 97 = Ret (true, sim_a_star_fed) ∧
  (true = true ↔ accepts_on sim_a_star_fed 97) ∧
  (accepts_on sim_a_star_fed 97 ↔
   ∃ fuel s', cre_sim_feedc fuel sim_a_star_fed 97 = Ret (true, s')) ∧
  (∀ fuel, (closure_fuel (pat sim_a_star_fed) rk_a_star ≤ fuel)%nat →
           ∃ r s', cre_sim_feedc fuel sim_a_star_fed 97 = Ret (r, s') ∧
                   (r = true ↔ accepts_on sim_a_star_fed 97)).
Proof.
  split_and!; [reflexivity | reflexivity | lia | lia | reflexivity | | |].
  - apply (proj1 (cre_sim_feedc_accept rk_a_star sim_a_star_fed 97)
             3%nat true sim_a_star_fed).
    reflexivity.
  - apply (proj2 (cre_sim_feedc_accept rk_a_star sim_a_star_fed 97));
      reflexivity.
  - apply (proj2 (cre_sim_feedc_accept rk_a_star sim_a_star_fed 97));
      [reflexivity | reflexivity | lia].
Defined.

(** C3 as stated fails on [b] followed by the star of [a*]: the node that
    matches [b] is active and its edge leads to accept through the two
    split nodes, and no budget lets [cre_sim_feedc] return true. *)
Lemma cre_sim_feedc_accept_fails_on_cycle :
  sim_ok sim_b_a_star_star = true ∧
  accepts_on sim_b_a_star_star 98 ∧
  ¬ ∃ fuel s', cre_sim_feedc fuel sim_b_a_star_star 98 = Ret (true, s').
Proof.
  split_and!; [reflexivity | |].
  - exists 0, {| kind := cre_SET; u := 3; v := -1; set := set_b |}.
    split_and!; [by split | reflexivity | reflexivity | by split |].
    left. eapply reach_eps_v; [reflexivity..|]. constructor.
  - intros (fuel & s' & H). by rewrite cre_sim_feedc_cycle in H.
Qed.

(** C4, on [a*]: [cre_sim_reset] returns with the split node, the start
    index, as the one active node; the byte-matching node behind it, which
    is reachable from the start index without consuming a byte, is not
    active, and accept, also reachable that way, is reported nowhere. *)
Theorem cre_sim_reset_skips_closure :
  pat_ok pat_a_star = true ∧
  cre_sim_reset sim_a_star = Ret sim_a_star ∧
  in_ sim_a_star = [true; false] ∧
  closure_reaches (pat sim_a_star) (nfa_start (pat sim_a_star)) 1 ∧
  reaches_accept (pat sim_a_star) (nfa_start (pat sim_a_star)) ∧
  ¬ (∀ i, active (in_ sim_a_star) i ↔
          closure_reaches (pat sim_a_star) (nfa_start (pat sim_a_star)) i).
Proof.
  assert (closure_reaches (pat sim_a_star) (nfa_start (pat sim_a_star)) 1)
    as Hcl.
  { eapply closure_eps_u; [reflexivity..|]. eapply closure_set; reflexivity. }
  split_and!; [reflexivity | reflexivity | reflexivity | done | |].
  - eapply reach_eps_v; [reflexivity..|]. constructor.
  - intros H. apply H in Hcl as [_ Hact]. discriminate.
Qed.

(** C5, on [a*] as [cre_sim_init] sets its simulator up: the start index
    is marked active, and it is the index of an epsilon node.  (After a
    feed no epsilon node is active: [cre_sim_feedc_no_eps_active].) *)
Theorem cre_sim_reset_eps_start_active (junk : bool) :
  pat_ok pat_a_star = true ∧
  cre_sim_init (malloc junk 2) (malloc junk 2) pat_a_star = Ret sim_a_star ∧
  active (in_ sim_a_star) 0 ∧
  kind <$> node_at (pat sim_a_star) 0 = Some cre_EPS ∧
  ¬ no_eps_active (pat sim_a_star) (in_ sim_a_star).
Proof.
  split_and!; [reflexivity | by destruct junk | by split | reflexivity |].
  intros H. specialize (H 0 _ ltac:(by split) eq_refl). discriminate.
Qed.

(** C6, as the code has it: [cre_sim_reset] returns on every well-formed
    simulator; [cre_sim_feedc] returns on it for every table index and
    every budget from [closure_fuel] on, whenever the pattern has a rank
    that decreases along the edges of its epsilon nodes. *)
Theorem cre_sim_terminates_without_eps_cycle (s : cre_sim) :
  sim_ok s = true →
  returns (cre_sim_reset s) = true ∧
  ∀ (rk : Z → nat) (c : Z) (fuel : nat),
    eps_ranked (pat s) rk = true → 0 ≤ c < 256 →
    (closure_fuel (pat s) rk ≤ fuel)%nat →
    returns (cre_sim_feedc fuel s c) = true.
Proof.
  intros Hok. split.
  - by rewrite cre_sim_reset_spec.
  - intros rk c fuel Hrk Hc Hfuel.
    by destruct (cre_sim_feedc_total rk fuel s c) as (r & s' & ->).
Qed.

Lemma cre_sim_terminates_without_eps_cycle_witness :
  sim_ok sim_a_star_fed = true ∧
  eps_ranked (pat sim_a_star_fed) rk_a_star = true ∧
  returns (cre_sim_reset sim_a_star_fed) = true ∧
  returns (cre_sim_feedc 3 sim_a_star_fed 97) = true ∧
  returns (cre_sim_reset sim_b_a_star_star) = true.
Proof.
  split; [reflexivity|]. split; [reflexivity|]. split_and!.
  - apply (cre_sim_terminates_without_eps_cycle sim_a_star_fed eq_refl).
  - apply (proj2 (cre_sim_terminates_without_eps_cycle sim_a_star_fed
                    eq_refl) rk_a_star 97 3%nat);
      [reflexivity | lia | vm_compute; lia].
  - apply (cre_sim_terminates_without_eps_cycle sim_b_a_star_star eq_refl).
Defined.

(** C6 as stated fails on [b] followed by the star of [a*]: the
    simulator that [cre_sim_init] sets up is well-formed, and no budget
    lets [cre_sim_feedc] return on the byte [b]. *)
Lemma cre_sim_feedc_eps_cycle_diverges :
  sim_ok sim_b_a_star_star = true ∧
  cre_sim_init (malloc false 4) (malloc false 4) pat_b_a_star_star
    = Ret sim_b_a_star_star ∧
  ¬ ∃ fuel, returns (cre_sim_feedc fuel sim_b_a_star_star 98) = true.
Proof.
  split_and!; [reflexivity..|].
  intros [fuel H]. by rewrite cre_sim_feedc_cycle in H.
Qed.

(** C7: whatever [cre_parse_] does, [cre_pat_init] hands no error string
    back, also on the source text of an unbalanced group. *)
Theorem cre_pat_init_never_reports
        (cre_parse_ : cre_pat → string → res (cre_pat * Z))
        (p : cre_pat) (s : string) :
  reports_error (cre_pat_init cre_parse_ p s) = false ∧
  reports_error (cre_pat_init cre_parse_ p "(a") = false.
Proof.
  unfold cre_pat_init. simpl.
  split; match goal with
         | |- context [cre_parse_ ?q ?t] =>
           by destruct (cre_parse_ q t) as [[]| |]
         end.
Qed.

(** C8, on the simulator of [a] and the byte 200 where [char] is signed:
    the argument is -56, the table lookup is out of bounds, and the call
    is undefined for every budget. *)
Theorem cre_sim_feedc_signed_char_undef (fuel : nat) :
  sim_ok sim_a = true ∧
  char_of_byte true 200 = -56 ∧
  cre_sim_feedc fuel sim_a (char_of_byte true 200) = Undef.
Proof. done. Qed.

(** C9: a simulator that is reset, fed any bytes and reset again is in
    the state [cre_sim_init] sets up; an iterator that is reset, fed any
    bytes and reset again goes through the same views as one
    [cre_iter_init] has just set up, whatever is called on it next. *)
Theorem reset_feeds_reset_fresh (jb : bool) (ji : Z) :
  (∀ (s s1 s2 : cre_sim) (cs : list Z) (rs : list bool) (fuel : nat),
     sim_ok s = true →
     cre_sim_reset s = Ret s1 →
     cre_sim_feeds fuel s1 cs = Ret (rs, s2) →
     returns (cre_sim_reset s2) = true ∧
     cre_sim_reset s2 =
       cre_sim_init (malloc jb (nfa_len (pat s)))
                    (malloc jb (nfa_len (pat s))) (pat s)) ∧
  (∀ (it it0 : cre_iter) (cs : list Z) (fuel : nat),
     ∃ it2,
       cre_iter_feeds jb ji fuel (cre_iter_reset it) cs = Ret it2 ∧
       ∀ (fuel' : nat) (ops : list iter_op),
         returns (iter_run jb ji fuel' (cre_iter_reset it2) ops) = true ∧
         iter_run jb ji fuel' (cre_iter_reset it2) ops =
           iter_run jb ji fuel' (cre_iter_init it0 (iter_pat it)) ops).
Proof.
  split.
  - intros s s1 s2 cs rs fuel Hok Hr1 Hfeeds.
    pose proof Hok as (Hpok & _)%sim_ok_parts.
    rewrite cre_sim_reset_spec in Hr1 by done. injection Hr1 as <-.
    apply cre_sim_feeds_ok in Hfeeds as [Hok2 Hp2];
      [|by apply sim_ok_reset_state].
    simpl in Hp2. rewrite cre_sim_reset_spec, Hp2 by done.
    split; [done|]. unfold cre_sim_init. rewrite cre_sim_reset_spec; [done|].
    pose proof (pat_ok_start _ Hpok).
    apply sim_ok_intro; simpl; [done|..];
      unfold malloc; rewrite length_replicate; lia.
  - intros it it0 cs fuel. exists (cre_iter_reset it).
    split; [by apply cre_iter_feeds_idle|].
    intros fuel' ops.
    destruct (iter_run_idle jb ji fuel' ops
                (cre_iter_reset (cre_iter_reset it))
                (cre_iter_init it0 (iter_pat it))) as [Heq Hret]; done.
Qed.

Lemma reset_feeds_reset_fresh_witness :
  sim_ok sim_a_star_fed = true ∧
  cre_sim_reset sim_a_star_fed = Ret sim_a_star ∧
  cre_sim_feeds 3 sim_a_star [97; 98]
    = Ret ([false; false],
           {| pat := pat_a_star; in_ := [false; false];
              lastin := [false; false] |}) ∧
  returns (cre_sim_reset {| pat := pat_a_star; in_ := [false; false];
                            lastin := [false; false] |}) = true ∧
  cre_sim_reset {| pat := pat_a_star; in_ := [false; false];
                   lastin := [false; false] |} =
    cre_sim_init (malloc true (nfa_len (pat sim_a_star_fed)))
                 (malloc true (nfa_len (pat sim_a_star_fed)))
                 (pat sim_a_star_fed).
Proof.
  split; [reflexivity|]. split; [reflexivity|]. split; [reflexivity|].
  apply (proj1 (reset_feeds_reset_fresh true 0)
           sim_a_star_fed sim_a_star
           {| pat := pat_a_star; in_ := [false; false];
              lastin := [false; false] |}
           [97; 98] [false; false] 3%nat); reflexivity.
Defined.

(** [cre_iter_reset] on the record of the iterator: the two lengths are
    zero, every other field is as it was. *)
Lemma cre_iter_reset_fields (it : cre_iter) :
  paths_len (cre_iter_reset it) = 0 ∧
  buf_len (cre_iter_reset it) = 0 ∧
  iter_pat (cre_iter_reset it) = iter_pat it ∧
  paths_cap (cre_iter_reset it) = paths_cap it ∧
  paths (cre_iter_reset it) = paths it ∧
  buf_cap (cre_iter_reset it) = buf_cap it ∧
  buf (cre_iter_reset it) = buf it ∧
  slot_contents <$> paths (cre_iter_reset it) = slot_contents <$> paths it.
Proof. done. Qed.

Example cre_iter_free_mem_one_path :
  Heap.log <$> Heap.cre_iter_free mem_one_path (Heap.Block 0)
  = Ret [ Heap.ev_free (Heap.Block 2); Heap.ev_free (Heap.Block 3);
          Heap.ev_free (Heap.Block 4); Heap.ev_free (Heap.Block 5);
          Heap.ev_free (Heap.Block 1); Heap.ev_free (Heap.Block 6) ].
Proof. vm_compute. reflexivity. Qed.

Lemma heap_load_iter (m : Heap.mem) (b : nat) (it : Heap.cre_iter) :
  Heap.objs m !! b = Some (Heap.obj_iter it) →
  Heap.load_iter m (Heap.Block b) = Ret it.
Proof. intros Hb. unfold Heap.load_iter. by rewrite Hb. Qed.

Lemma heap_store_iter (m : Heap.mem) (b : nat) (it it' : Heap.cre_iter) :
  Heap.objs m !! b = Some (Heap.obj_iter it) →
  Heap.store_iter m (Heap.Block b) it'
  = Ret {| Heap.objs := <[b := Heap.obj_iter it']> (Heap.objs m);
           Heap.log := Heap.log m |}.
Proof. intros Hb. unfold Heap.store_iter. by rewrite Hb. Qed.

(** C10: in any memory that holds an iterator at [iter], [cre_iter_reset]
    returns and has written the two lengths of that struct, now zero, and
    nothing else: the struct keeps its pointers [paths] and [buf], its two
    capacities and its pattern; the allocator has been asked nothing, so
    the log is as it was and the same blocks are in use; and every other
    block, the pool with each of its slots, the buffers of their
    simulators, their capture arrays and the byte buffer, holds what it
    held. *)
Theorem cre_iter_reset_memory_frame
        (m : Heap.mem) (b : nat) (it : Heap.cre_iter) :
  Heap.objs m !! b = Some (Heap.obj_iter it) →
  ∃ m' it',
    Heap.cre_iter_reset m (Heap.Block b) = Ret m' ∧
    Heap.objs m' !! b = Some (Heap.obj_iter it') ∧
    Heap.paths_len it' = 0 ∧ Heap.buf_len it' = 0 ∧
    Heap.paths it' = Heap.paths it ∧
    Heap.paths_cap it' = Heap.paths_cap it ∧
    Heap.buf it' = Heap.buf it ∧ Heap.buf_cap it' = Heap.buf_cap it ∧
    Heap.iter_pat it' = Heap.iter_pat it ∧
    Heap.log m' = Heap.log m ∧
    dom (Heap.objs m') = dom (Heap.objs m) ∧
    ∀ b', b' ≠ b → Heap.objs m' !! b' = Heap.objs m !! b'.
Proof.
  intros Hb. unfold Heap.cre_iter_reset.
  rewrite (heap_load_iter _ _ _ Hb). unfold mbind, res_bind at 1.
  erewrite heap_store_iter by done. unfold res_bind at 1.
  set (it1 := {| Heap.paths_len := 0 |}).
  assert (Heap.objs {| Heap.objs := <[b := Heap.obj_iter it1]> (Heap.objs m);
                       Heap.log := Heap.log m |} !! b
          = Some (Heap.obj_iter it1)) as Hb1 by apply lookup_insert_eq.
  rewrite (heap_load_iter _ _ _ Hb1). unfold res_bind at 1.
  erewrite heap_store_iter by done.
  eexists _, _. split; [reflexivity|]. cbn [Heap.objs Heap.log].
  rewrite insert_insert_eq, lookup_insert_eq. split; [reflexivity|].
  split_and!; try done.
  - apply dom_insert_lookup_L. by rewrite Hb.
  - intros b' Hne. by rewrite lookup_insert_ne.
Qed.

Lemma cre_iter_reset_memory_frame_witness :
  ∃ m' it',
    Heap.cre_iter_reset mem_one_path (Heap.Block 0) = Ret m' ∧
    Heap.objs m' !! 0%nat = Some (Heap.obj_iter it') ∧
    Heap.paths_len it' = 0 ∧ Heap.buf_len it' = 0 ∧
    Heap.paths it' = Heap.Block 1 ∧ Heap.paths_cap it' = 1 ∧
    Heap.buf it' = Heap.Block 6 ∧ Heap.buf_cap it' = 1 ∧
    Heap.iter_pat it' = Heap.NULL ∧
    Heap.log m' = Heap.log mem_one_path ∧
    dom (Heap.objs m') = dom (Heap.objs mem_one_path) ∧
    ∀ b', b' ≠ 0%nat →
          Heap.objs m' !! b' = Heap.objs mem_one_path !! b'.
Proof.
  apply (cre_iter_reset_memory_frame mem_one_path 0
           {| Heap.iter_pat := Heap.NULL; Heap.paths_len := 1;
              Heap.paths_cap := 1; Heap.paths := Heap.Block 1;
              Heap.buf_len := 1; Heap.buf_cap := 1;
              Heap.buf := Heap.Block 6 |}).
  reflexivity.
Defined.

(** * Further properties of the simulator *)

Lemma sim_sized_parts (s : cre_sim) :
  sim_sized s = true ↔
  Z.of_nat (length (in_ s)) = nfa_len (pat s) ∧
  Z.of_nat (length (lastin s)) = nfa_len (pat s).
Proof. unfold sim_sized. by rewrite andb_true_iff, !bool_decide_eq_true. Qed.

Lemma sim_ok_sized (s : cre_sim) : sim_ok s = true → sim_sized s = true.
Proof. intros (_ & ? & ?)%sim_ok_parts. by apply sim_sized_parts. Qed.

Lemma all_clear_active (a : list bool) :
  all_clear a = true ↔ ∀ i, ¬ active a i.
Proof.
  unfold all_clear. rewrite forallb_forall. split.
  - intros Hall i [_ Hi]. apply list_elem_of_lookup_2, list_elem_of_In in Hi.
    by apply Hall in Hi.
  - intros Hno b [k Hk]%list_elem_of_In%list_elem_of_lookup_1.
    destruct b; [|done]. destruct (Hno (Z.of_nat k)).
    split; [lia|]. by rewrite Nat2Z.id.
Qed.

Lemma all_clear_replicate (n : nat) : all_clear (replicate n false) = true.
Proof. apply all_clear_active, active_replicate_false. Qed.

(** The first loop of [cre_sim_reset] on buffers of [nfa_len] entries. *)
Lemma cre_sim_reset_clear (s : cre_sim) :
  sim_sized s = true →
  for_upto (nfa_len (pat s)) (λ i s,
      l ← store (lastin s) i false;
      a ← store (in_ s) i false;
      Ret {| pat := pat s; in_ := a; lastin := l |}) s
  = Ret {| pat := pat s;
           in_ := replicate (Z.to_nat (nfa_len (pat s))) false;
           lastin := replicate (Z.to_nat (nfa_len (pat s))) false |}.
Proof.
  intros [Hin Hlast]%sim_sized_parts. unfold for_upto.
  set (body := λ (i : Z) (s : cre_sim), _).
  destruct (for_range_total
    (λ j t, pat t = pat s ∧ length (in_ t) = length (in_ s) ∧
            length (lastin t) = length (lastin s) ∧
            ∀ x, Z.of_nat x < j →
                 in_ t !! x = Some false ∧ lastin t !! x = Some false)
    body (Z.to_nat (nfa_len (pat s))) 0 s) as (t & -> & Ht).
  - split_and!; try done. intros x Hx. lia.
  - intros j t Hj (Hp & Hl1 & Hl2 & Hclr). subst body. simpl.
    unfold store. rewrite !bool_decide_eq_true_2 by lia. simpl.
    eexists. split; [done|]. simpl. rewrite !length_insert.
    split_and!; try done. intros x Hx.
    destruct (decide (x = Z.to_nat j)) as [->|Hne].
    + rewrite !list_lookup_insert_eq by lia. done.
    + rewrite !list_lookup_insert_ne by lia. apply Hclr. lia.
  - destruct Ht as (Hp & Hl1 & Hl2 & Hclr).
    destruct t as [tp tin tlast]. simpl in *. subst tp.
    assert (tin = replicate (Z.to_nat (nfa_len (pat s))) false) as ->.
    { apply all_false_replicate; [lia|]. intros x Hx. apply Hclr. lia. }
    assert (tlast = replicate (Z.to_nat (nfa_len (pat s))) false) as ->.
    { apply all_false_replicate; [lia|]. intros x Hx. apply Hclr. lia. }
    done.
Qed.

Lemma cre_sim_reset_in_range (s : cre_sim) :
  sim_sized s = true → 0 ≤ nfa_start (pat s) < nfa_len (pat s) →
  cre_sim_reset s = Ret (reset_state (pat s)).
Proof.
  intros Hs Hstart. unfold cre_sim_reset.
  rewrite (cre_sim_reset_clear s Hs). simpl.
  unfold store. rewrite length_replicate.
  by rewrite bool_decide_eq_true_2 by lia.
Qed.

(** X1: on buffers of [nfa_len] entries [cre_sim_reset] returns exactly
    when the start index is an index of the node array; it then leaves
    the state that depends on the pattern alone, and is an out-of-bounds
    write otherwise. *)
Theorem cre_sim_reset_start_bounds (s : cre_sim) :
  sim_sized s = true →
  (0 ≤ nfa_start (pat s) < nfa_len (pat s) →
   cre_sim_reset s = Ret (reset_state (pat s))) ∧
  (¬ 0 ≤ nfa_start (pat s) < nfa_len (pat s) → cre_sim_reset s = Undef).
Proof.
  intros Hs. pose proof Hs as [Hin Hlast]%sim_sized_parts.
  unfold cre_sim_reset. rewrite (cre_sim_reset_clear s Hs). simpl.
  unfold store. rewrite length_replicate. split; intros Hstart.
  - by rewrite bool_decide_eq_true_2 by lia.
  - by rewrite bool_decide_eq_false_2 by lia.
Qed.

Lemma cre_sim_reset_start_bounds_witness :
  sim_sized sim_a_star_fed = true ∧
  0 ≤ nfa_start (pat sim_a_star_fed) < nfa_len (pat sim_a_star_fed) ∧
  cre_sim_reset sim_a_star_fed = Ret (reset_state (pat sim_a_star_fed)).
Proof.
  split; [reflexivity|]. split; [simpl; lia|].
  apply (proj1 (cre_sim_reset_start_bounds sim_a_star_fed eq_refl)).
  simpl. lia.
Defined.

(** X2: [cre_sim_init] builds the same simulator whatever the two blocks
    it gets from [malloc] contain, and that simulator is well-formed. *)
Theorem cre_sim_init_any_blocks (m_in m_lastin : list bool) (p : cre_pat) :
  pat_ok p = true →
  Z.of_nat (length m_in) = nfa_len p →
  Z.of_nat (length m_lastin) = nfa_len p →
  cre_sim_init m_in m_lastin p = Ret (reset_state p) ∧
  sim_ok (reset_state p) = true.
Proof.
  intros Hok Hin Hlast. split; [|by apply sim_ok_reset_state].
  unfold cre_sim_init.
  apply (cre_sim_reset_in_range
           {| pat := p; in_ := m_in; lastin := m_lastin |}).
  - by apply sim_sized_parts.
  - by apply pat_ok_start.
Qed.

Lemma cre_sim_init_any_blocks_witness :
  pat_ok pat_abc = true ∧
  cre_sim_init [true; false; true] [true; true; true] pat_abc
    = Ret (reset_state pat_abc) ∧
  sim_ok (reset_state pat_abc) = true.
Proof.
  split; [reflexivity|].
  apply (cre_sim_init_any_blocks [true; false; true] [true; true; true]
           pat_abc); reflexivity.
Defined.

(** X3: a call of [cre_sim_add_] that returns tells whether accept is
    reachable from the edge through epsilon nodes, sets in [in] exactly
    the byte-matching nodes of the closure of the edge, clears no entry,
    and touches neither [lastin] nor the pattern. *)
Theorem cre_sim_add_closure (fuel : nat) (s s' : cre_sim) (i : Z) (r : bool) :
  cre_sim_add_ fuel s i = Ret (r, s') →
  (r = true ↔ reaches_accept (pat s) i) ∧
  (∀ j, active (in_ s') j ↔ active (in_ s) j ∨ closure_reaches (pat s) i j) ∧
  (∀ j, active (in_ s) j → active (in_ s') j) ∧
  (∀ j, active (in_ s') j → ¬ active (in_ s) j →
        kind <$> node_at (pat s) j = Some cre_SET) ∧
  pat s' = pat s ∧ lastin s' = lastin s ∧
  length (in_ s') = length (in_ s).
Proof.
  intros (Hp & Hl & Hlen & Hr & Hin)%cre_sim_add_spec.
  split_and!; try done.
  - intros j Hj. apply Hin. by left.
  - intros j Hj Hnj. apply Hin in Hj as [?|Hcl]; [done|].
    apply closure_reaches_is_set in Hcl as (n & -> & E). simpl. by rewrite E.
Qed.

Lemma cre_sim_add_closure_witness :
  cre_sim_add_ 2 sim_a_star 0
    = Ret (true, {| pat := pat_a_star; in_ := [true; true];
                    lastin := [false; false] |}) ∧
  reaches_accept (pat sim_a_star) 0.
Proof.
  split; [reflexivity|].
  apply (proj1 (cre_sim_add_closure 2 sim_a_star
                  {| pat := pat_a_star; in_ := [true; true];
                     lastin := [false; false] |} 0 true eq_refl)).
  reflexivity.
Defined.

(** X4: a call of [cre_sim_feedc] that returns, on buffers of [nfa_len]
    entries, leaves the pattern as it was, the old active set in [lastin],
    and in [in] exactly the byte-matching nodes in the closure of the
    edges of the nodes that were active and match the byte; the buffers
    keep their size. *)
Theorem cre_sim_feedc_step (fuel : nat) (s s' : cre_sim) (c : Z) (r : bool) :
  sim_sized s = true →
  cre_sim_feedc fuel s c = Ret (r, s') →
  pat s' = pat s ∧ lastin s' = in_ s ∧
  (∀ j, active (in_ s') j ↔ steps_to s c j) ∧
  sim_sized s' = true.
Proof.
  intros [Hin Hlast]%sim_sized_parts
         (Hp & Hl & Hlen & _ & Hact)%cre_sim_feedc_spec.
  split_and!; try done.
  - apply Hact. lia.
  - apply sim_sized_parts. rewrite Hp, Hl. split; [lia | done].
Qed.

Lemma cre_sim_feedc_step_witness :
  sim_sized (reset_state pat_abc) = true ∧
  cre_sim_feedc 1 (reset_state pat_abc) 97
    = Ret (false, {| pat := pat_abc; in_ := [false; true; false];
                     lastin := [true; false; false] |}) ∧
  steps_to (reset_state pat_abc) 97 1.
Proof.
  split; [reflexivity|]. split; [reflexivity|].
  apply (proj1 (proj2 (proj2 (cre_sim_feedc_step 1 (reset_state pat_abc)
           {| pat := pat_abc; in_ := [false; true; false];
              lastin := [true; false; false] |} 97 false
           eq_refl eq_refl)))).
  split; [lia | reflexivity].
Defined.

Lemma cre_sim_feedc_sized (fuel : nat) (s s' : cre_sim) (c : Z) (r : bool) :
  sim_sized s = true → cre_sim_feedc fuel s c = Ret (r, s') →
  sim_sized s' = true ∧ pat s' = pat s ∧
  ∀ j, active (in_ s') j ↔ steps_to s c j.
Proof.
  intros [Hin Hlast]%sim_sized_parts
         (Hp & Hl & Hlen & _ & Hact)%cre_sim_feedc_spec.
  split_and!; [|done|apply Hact; lia].
  apply sim_sized_parts. rewrite Hp, Hl. split; [lia|done].
Qed.

(** X5: after any sequence of at least one feed that returns, no epsilon
    node is active, the pattern is the one the simulator started with and
    the buffers keep their size; there is one result per byte. *)
Theorem cre_sim_feeds_invariant (fuel : nat) (cs : list Z) :
  ∀ (s s' : cre_sim) (rs : list bool),
    sim_sized s = true →
    cre_sim_feeds fuel s cs = Ret (rs, s') →
    length rs = length cs ∧ pat s' = pat s ∧ sim_sized s' = true ∧
    (cs ≠ [] → no_eps_active (pat s') (in_ s')).
Proof.
  induction cs as [|c cs IH]; intros s s' rs Hs Hrun; simpl in Hrun.
  - injection Hrun as <- <-. done.
  - inv_bind Hrun. destruct a as [r s1].
    inv_bind Hrun. destruct a as [rs1 s2]. injection Hrun as <- <-.
    pose proof (cre_sim_feedc_sized _ _ _ _ _ Hs Ha) as (Hs1 & Hp1 & Hact).
    destruct (IH _ _ _ Hs1 Ha0) as (Hlen & Hp2 & Hs2 & Hne).
    split_and!; [simpl; lia | congruence | done |]. intros _.
    destruct cs as [|c' cs]; [|by apply Hne].
    simpl in Ha0. injection Ha0 as <- <-.
    intros j n Hj Hn. apply Hact in Hj as (i & m & _ & Hcl).
    rewrite Hp1 in Hn.
    destruct Hcl as [Hcl|Hcl];
      apply closure_reaches_is_set in Hcl as (n' & Hn' & E); congruence.
Qed.

Lemma cre_sim_feeds_invariant_witness :
  sim_sized sim_a_star_fed = true ∧
  cre_sim_feeds 3 sim_a_star_fed [97; 97]
    = Ret ([true; true], sim_a_star_fed) ∧
  no_eps_active (pat sim_a_star_fed) (in_ sim_a_star_fed).
Proof.
  split; [reflexivity|]. split; [reflexivity|].
  apply (cre_sim_feeds_invariant 3 [97; 97] sim_a_star_fed
           sim_a_star_fed [true; true] eq_refl eq_refl).
  discriminate.
Defined.

Lemma matches_from_single (p : cre_pat) (i c : Z) :
  matches_from p i [c] ↔
  ∃ n, node_at p i = Some n ∧ kind n = cre_SET ∧ active (set n) c ∧
       (reaches_accept p (u n) ∨ reaches_accept p (v n)).
Proof.
  split.
  - inversion 1 as [? n ? Hn E Hc Hacc|? n ? j ? Hn E Hc Hcl Hrest]; subst.
    + eauto.
    + inversion Hrest.
  - intros (n & Hn & E & Hc & Hacc). by eapply matches_last.
Qed.

Lemma matches_from_cons (p : cre_pat) (i c c' : Z) (cs : list Z) :
  matches_from p i (c :: c' :: cs) ↔
  ∃ n j, node_at p i = Some n ∧ kind n = cre_SET ∧ active (set n) c ∧
         (closure_reaches p (u n) j ∨ closure_reaches p (v n) j) ∧
         matches_from p j (c' :: cs).
Proof.
  split.
  - inversion 1 as [|? n ? j ? Hn E Hc Hcl Hrest]; subst. eauto 10.
  - intros (n & j & Hn & E & Hc & Hcl & Hrest). by eapply matches_step.
Qed.

(** The results of a sequence of feeds that returned, on buffers of
    [nfa_len] entries. *)
Lemma cre_sim_feeds_matches_returned (fuel : nat) (cs : list Z) :
  ∀ (s s' : cre_sim) (rs : list bool) (k : nat),
    sim_sized s = true →
    cre_sim_feeds fuel s cs = Ret (rs, s') →
    (k < length cs)%nat →
    (rs !! k = Some true ↔
     ∃ i, active (in_ s) i ∧ matches_from (pat s) i (take (S k) cs)).
Proof.
  induction cs as [|c cs IH]; intros s s' rs k Hs Hrun Hk; simpl in Hk;
    [lia|].
  simpl in Hrun. inv_bind Hrun. destruct a as [r s1].
  inv_bind Hrun. destruct a as [rs1 s2]. injection Hrun as <- <-.
  pose proof (cre_sim_feedc_sized _ _ _ _ _ Hs Ha) as (Hs1 & Hp1 & Hact).
  destruct k as [|k].
  - simpl. rewrite take_0.
    apply cre_sim_feedc_spec in Ha as (_ & _ & _ & Hr & _).
    assert (Some r = Some true ↔ r = true) as -> by (split; congruence).
    rewrite Hr. unfold accepts_on. split.
    + intros (i & n & Hi & Hn & E & Hc & Hacc). exists i. split; [done|].
      apply matches_from_single. eauto.
    + intros (i & Hi & (n & Hn & E & Hc & Hacc)%matches_from_single). eauto 10.
  - simpl. rewrite (IH s1 s2 rs1 k Hs1 Ha0) by lia. rewrite Hp1.
    destruct cs as [|c' cs]; [simpl in Hk; lia|].
    change (take (S k) (c' :: cs)) with (c' :: take k cs). split.
    + intros (j & Hj & Hrest). apply Hact in Hj as (i & n & Hf & Hcl).
      destruct Hf as (Hi & Hn & E & Hc). exists i. split; [done|].
      apply matches_from_cons. eauto 10.
    + intros (i & Hi & (n & j & Hn & E & Hc & Hcl & Hrest)%matches_from_cons).
      exists j. split; [|done]. apply Hact. exists i, n. by split.
Qed.

Lemma cre_sim_feeds_length (fuel : nat) (cs : list Z) :
  ∀ (s s' : cre_sim) (rs : list bool),
    cre_sim_feeds fuel s cs = Ret (rs, s') → length rs = length cs.
Proof.
  induction cs as [|c cs IH]; intros s s' rs Hrun; simpl in Hrun.
  - by injection Hrun as <- <-.
  - inv_bind Hrun. destruct a as [r s1].
    inv_bind Hrun. destruct a as [rs1 s2]. injection Hrun as <- <-.
    simpl. f_equal. by eapply IH.
Qed.

Lemma cre_sim_feeds_returns (rk : Z → nat) (fuel : nat) (cs : list Z) :
  ∀ s : cre_sim,
    sim_ok s = true → eps_ranked (pat s) rk = true →
    forallb (λ c, bool_decide (0 ≤ c < 256)) cs = true →
    (closure_fuel (pat s) rk ≤ fuel)%nat →
    ∃ rs s', cre_sim_feeds fuel s cs = Ret (rs, s').
Proof.
  induction cs as [|c cs IH]; intros s Hok Hrk Hcs Hfuel; [by eexists _, _|].
  simpl in Hcs. apply andb_true_iff in Hcs as [Hc%bool_decide_eq_true Hcs].
  simpl. destruct (cre_sim_feedc_total rk fuel s c) as (r & s1 & Hrun);
    [done..|].
  rewrite Hrun. simpl.
  apply (cre_sim_feedc_ok _ _ _ _ _ Hok) in Hrun as [Hok1 Hp1].
  destruct (IH s1) as (rs & s' & ->);
    [done | by rewrite Hp1 | done | by rewrite Hp1 |].
  simpl. by eexists _, _.
Qed.

(** X6: on a well-formed simulator whose pattern has no epsilon cycle, a
    sequence of table indices fed with a budget of [closure_fuel] or more
    returns one result per byte, and the result at position [k] is true
    exactly when the automaton, started at some node that was active
    before the first feed, consumes the bytes up to position [k] and then
    reaches accept.  On any simulator with buffers of [nfa_len] entries,
    the results of a sequence of feeds that returns are those. *)
Theorem cre_sim_feeds_matches (fuel : nat) (cs : list Z) (s : cre_sim) :
  (∀ rk : Z → nat,
     sim_ok s = true → eps_ranked (pat s) rk = true →
     table_indices cs = true → (closure_fuel (pat s) rk ≤ fuel)%nat →
     ∃ rs s',
       cre_sim_feeds fuel s cs = Ret (rs, s') ∧ length rs = length cs ∧
       ∀ k, (k < length cs)%nat →
            (rs !! k = Some true ↔
             ∃ i, active (in_ s) i ∧
                  matches_from (pat s) i (take (S k) cs))) ∧
  (sim_sized s = true →
   ∀ rs s' k,
     cre_sim_feeds fuel s cs = Ret (rs, s') → (k < length cs)%nat →
     (rs !! k = Some true ↔
      ∃ i, active (in_ s) i ∧ matches_from (pat s) i (take (S k) cs))).
Proof.
  split.
  - intros rk Hok Hrk Hcs Hfuel.
    destruct (cre_sim_feeds_returns rk fuel cs s) as (rs & s' & Hrun);
      [done..|].
    pose proof (sim_ok_sized _ Hok) as Hs.
    exists rs, s'. split_and!; [done| |].
    + by eapply cre_sim_feeds_length.
    + intros k Hk. by eapply cre_sim_feeds_matches_returned.
  - intros Hs rs s' k Hrun Hk. by eapply cre_sim_feeds_matches_returned.
Qed.

Lemma cre_sim_feeds_matches_witness :
  sim_ok (reset_state pat_abc) = true ∧
  eps_ranked (pat (reset_state pat_abc)) (λ _, 0%nat) = true ∧
  table_indices [97; 98; 99] = true ∧
  cre_sim_feeds 2 (reset_state pat_abc) [97; 98; 99]
    = Ret ([false; false; true],
           {| pat := pat_abc; in_ := [false; false; false];
              lastin := [false; false; true] |}) ∧
  (∃ rs s',
     cre_sim_feeds 2 (reset_state pat_abc) [97; 98; 99] = Ret (rs, s') ∧
     length rs = length [97; 98; 99] ∧
     ∀ k, (k < length [97; 98; 99])%nat →
          (rs !! k = Some true ↔
           ∃ i, active (in_ (reset_state pat_abc)) i ∧
                matches_from (pat (reset_state pat_abc)) i
                  (take (S k) [97; 98; 99]))) ∧
  ∃ i, active (in_ (reset_state pat_abc)) i ∧
       matches_from (pat (reset_state pat_abc)) i (take 3 [97; 98; 99]).
Proof.
  split; [reflexivity|]. split; [reflexivity|]. split; [reflexivity|].
  split; [reflexivity|]. split.
  - apply (proj1 (cre_sim_feeds_matches 2 [97; 98; 99] (reset_state pat_abc))
             (λ _, 0%nat)); [reflexivity.. | vm_compute; lia].
  - apply (proj1 (proj2 (cre_sim_feeds_matches 2 [97; 98; 99]
                           (reset_state pat_abc)) eq_refl
                    [false; false; true]
                    {| pat := pat_abc; in_ := [false; false; false];
                       lastin := [false; false; true] |} 2%nat eq_refl
                    ltac:(simpl; lia))).
    reflexivity.
Defined.

(** The first loop of [cre_sim_feedc] on buffers of [nfa_len] entries. *)
Lemma cre_sim_feedc_clear (s : cre_sim) :
  sim_sized s = true →
  for_upto (nfa_len (pat s)) (λ i s,
      a ← store (in_ s) i false; Ret (sim_set_in s a))
    {| pat := pat s; in_ := lastin s; lastin := in_ s |}
  = Ret {| pat := pat s;
           in_ := replicate (Z.to_nat (nfa_len (pat s))) false;
           lastin := in_ s |}.
Proof.
  intros [Hin Hlast]%sim_sized_parts. unfold for_upto.
  set (body := λ (i : Z) (s : cre_sim), _).
  destruct (for_range_total
    (λ j t, pat t = pat s ∧ lastin t = in_ s ∧
            length (in_ t) = length (lastin s) ∧
            ∀ x, Z.of_nat x < j → in_ t !! x = Some false)
    body (Z.to_nat (nfa_len (pat s))) 0
    {| pat := pat s; in_ := lastin s; lastin := in_ s |}) as (t & -> & Ht).
  - split_and!; try done. intros x Hx. lia.
  - intros j t Hj (Hp & Hl & Hlen & Hclr). subst body. simpl.
    unfold store. rewrite bool_decide_eq_true_2 by lia. simpl.
    eexists. split; [done|]. simpl. rewrite length_insert.
    split_and!; try done. intros x Hx.
    destruct (decide (x = Z.to_nat j)) as [->|Hne].
    + by rewrite list_lookup_insert_eq by lia.
    + rewrite list_lookup_insert_ne by lia. apply Hclr. lia.
  - destruct Ht as (Hp & Hl & Hlen & Hclr).
    destruct t as [tp tin tlast]. simpl in *. subst tp tlast.
    assert (tin = replicate (Z.to_nat (nfa_len (pat s))) false) as ->; [|done].
    apply all_false_replicate; [lia|]. intros x Hx. apply Hclr. lia.
Qed.

(** When every active node is an epsilon node, no node fires: the call
    returns false whatever the byte and the budget, and clears [in]. *)
Lemma cre_sim_feedc_nothing_fires (fuel : nat) (s : cre_sim) (c : Z) :
  sim_sized s = true →
  (∀ i, active (in_ s) i →
        ∃ n, node_at (pat s) i = Some n ∧ kind n = cre_EPS) →
  cre_sim_feedc fuel s c
  = Ret (false, {| pat := pat s;
                   in_ := replicate (Z.to_nat (nfa_len (pat s))) false;
                   lastin := in_ s |}).
Proof.
  intros Hs Heps. pose proof Hs as [Hin Hlast]%sim_sized_parts.
  rewrite cre_sim_feedc_unfold, (cre_sim_feedc_clear s Hs). simpl.
  set (s1 := {| pat := pat s; in_ := _; lastin := in_ s |}).
  unfold for_upto.
  destruct (for_range_total (λ _ rt, rt = (false, s1))
    (feedc_scan fuel c) (Z.to_nat (nfa_len (pat s))) 0 (false, s1))
    as (rt & -> & ->); [done| |done].
  intros j rt Hj ->. exists (false, s1). split; [|done].
  unfold feedc_scan. simpl.
  destruct (load_in_range (in_ s) j) as [act Hact]; [lia|].
  rewrite Hact. simpl. destruct act; [|done].
  apply load_Ret in Hact as [Hj0 Hact].
  destruct (Heps j) as (n & Hn & E); [by split|].
  pose proof Hn as [_ Hload]%node_at_Some.
  assert (load (nfa (pat s)) j = Ret n) as ->
    by (apply load_Ret; split; [lia|done]).
  simpl. by rewrite E.
Qed.

(** The scan of [cre_iter_feedc] for a live state, on [k] entries from
    [j] on that are all there: it finds the first entry that is set. *)
Lemma has_instate_from_spec (k : nat) :
  ∀ (j : Z) (a : list bool),
    0 ≤ j → j + Z.of_nat k ≤ Z.of_nat (length a) →
    ∃ b, has_instate_from k j a = Ret b ∧
         (b = true ↔ ∃ i, j ≤ i < j + Z.of_nat k ∧ active a i).
Proof.
  induction k as [|k IH]; intros j a Hj Hlen; simpl.
  { exists false. split; [done|]. split; [done|]. intros (i & Hi & _). lia. }
  destruct (load_in_range a j) as [b Hb]; [lia|]. rewrite Hb. simpl.
  apply load_Ret in Hb as [_ Hb]. destruct b.
  { exists true. split; [done|]. split; [|done]. intros _.
    exists j. split; [lia|]. by split. }
  destruct (IH (j + 1) a) as (b & -> & Hiff); [lia..|].
  exists b. split; [done|]. rewrite Hiff. split.
  - intros (i & Hi & Hact). exists i. split; [lia | done].
  - intros (i & Hi & Hact). exists i. split; [|done].
    destruct (decide (i = j)) as [->|]; [|lia].
    destruct Hact as [_ Hact]. congruence.
Qed.

Lemma cre_sim_feeds_dead (fuel : nat) (cs : list Z) :
  ∀ s : cre_sim,
    sim_sized s = true → all_clear (in_ s) = true →
    ∃ s', cre_sim_feeds fuel s cs = Ret (replicate (length cs) false, s') ∧
          all_clear (in_ s') = true ∧ sim_sized s' = true ∧
          pat s' = pat s.
Proof.
  induction cs as [|c cs IH]; intros s Hs Hdead; [by exists s|].
  simpl. rewrite cre_sim_feedc_nothing_fires; [|done|]; cycle 1.
  { intros i Hi. by apply (proj1 (all_clear_active _) Hdead) in Hi. }
  simpl. pose proof Hs as [Hin Hlast]%sim_sized_parts.
  edestruct IH as (s' & -> & Hdead' & Hs' & Hp'); cycle 2.
  - simpl. exists s'. done.
  - apply sim_sized_parts. simpl. rewrite length_replicate. split; lia.
  - apply all_clear_replicate.
Qed.

(** X7: a simulator with no active node is dead for good: fed any
    sequence of bytes, with any budget, it returns false on each of them,
    keeps its pattern, and ends in a state in which the scan of
    [cre_iter_feedc] for a live state finds none. *)
Theorem cre_sim_dead_stays_dead (fuel : nat) (cs : list Z) (s : cre_sim) :
  sim_sized s = true → all_clear (in_ s) = true →
  ∃ s', cre_sim_feeds fuel s cs = Ret (replicate (length cs) false, s') ∧
        pat s' = pat s ∧
        has_instate_from (Z.to_nat (nfa_len (pat s'))) 0 (in_ s') = Ret false.
Proof.
  intros Hs Hdead.
  destruct (cre_sim_feeds_dead fuel cs s Hs Hdead)
    as (s' & Hrun & Hdead' & [Hin' _]%sim_sized_parts & Hp').
  exists s'. split_and!; [done..|].
  destruct (has_instate_from_spec (Z.to_nat (nfa_len (pat s'))) 0 (in_ s'))
    as (b & -> & Hb); [lia..|].
  destruct b; [|done]. destruct (proj1 Hb eq_refl) as (i & _ & Hi).
  by apply (proj1 (all_clear_active _) Hdead') in Hi.
Qed.

Lemma cre_sim_dead_stays_dead_witness :
  sim_sized {| pat := pat_abc; in_ := [false; false; false];
               lastin := [false; false; true] |} = true ∧
  ∃ s', cre_sim_feeds 0 {| pat := pat_abc; in_ := [false; false; false];
                           lastin := [false; false; true] |} [97; -56; 300]
        = Ret (replicate 3 false, s') ∧
        pat s' = pat_abc ∧
        has_instate_from (Z.to_nat (nfa_len (pat s'))) 0 (in_ s') = Ret false.
Proof.
  split; [reflexivity|].
  apply (cre_sim_dead_stays_dead 0 [97; -56; 300]
           {| pat := pat_abc; in_ := [false; false; false];
              lastin := [false; false; true] |}); reflexivity.
Defined.

(** X8: on a pattern whose start node is an epsilon node, a simulator
    that has been reset returns false on every byte of every sequence:
    [cre_sim_reset] marks the start node itself, and [cre_sim_feedc]
    passes over active epsilon nodes. *)
Theorem cre_sim_eps_start_never_matches
        (fuel : nat) (s : cre_sim) (n : cre_node) (cs : list Z) :
  sim_sized s = true →
  node_at (pat s) (nfa_start (pat s)) = Some n → kind n = cre_EPS →
  ∃ s1 s', cre_sim_reset s = Ret s1 ∧
           cre_sim_feeds fuel s1 cs = Ret (replicate (length cs) false, s').
Proof.
  intros Hs Hn E. pose proof Hn as [Hstart _]%node_at_Some.
  exists (reset_state (pat s)).
  destruct cs as [|c cs].
  { exists (reset_state (pat s)). split; [|done].
    by apply cre_sim_reset_in_range. }
  assert (sim_sized (reset_state (pat s)) = true) as Hs1.
  { apply sim_sized_parts. simpl.
    rewrite length_insert, length_replicate. split; lia. }
  simpl. rewrite cre_sim_feedc_nothing_fires; [|done|]; cycle 1.
  { intros i Hi. apply active_reset_state in Hi as ->; [|done]. eauto. }
  simpl.
  edestruct (cre_sim_feeds_dead fuel cs) as (s' & -> & _); cycle 2.
  - exists s'. split; [|done]. by apply cre_sim_reset_in_range.
  - apply sim_sized_parts. simpl.
    rewrite length_insert, !length_replicate. split; lia.
  - apply all_clear_replicate.
Qed.

Lemma cre_sim_eps_start_never_matches_witness :
  sim_sized sim_a_star_fed = true ∧
  ∃ s1 s', cre_sim_reset sim_a_star_fed = Ret s1 ∧
           cre_sim_feeds 5 s1 [97; 97]
           = Ret (replicate (length [97; 97]) false, s').
Proof.
  split; [reflexivity|].
  apply (cre_sim_eps_start_never_matches 5 sim_a_star_fed
           {| kind := cre_EPS; u := 1; v := -2; set := [] |} [97; 97]);
    reflexivity.
Defined.

(** X9: when a byte-matching node is active, a byte whose [char] value is
    not an index of that node's table makes [cre_sim_feedc] read the
    table out of bounds: the call returns for no budget. *)
Theorem cre_sim_feedc_table_bounds
        (fuel : nat) (s : cre_sim) (c i : Z) (n : cre_node) :
  active (in_ s) i → node_at (pat s) i = Some n → kind n = cre_SET →
  c < 0 ∨ Z.of_nat (length (set n)) ≤ c →
  returns (cre_sim_feedc fuel s c) = false.
Proof.
  intros Hi Hn E Hc.
  destruct (cre_sim_feedc fuel s c) as [[r s']| |] eqn:Hrun; [|done..].
  exfalso. rewrite cre_sim_feedc_unfold in Hrun.
  inv_bind Hrun. rename a into s1. unfold for_upto in Ha, Hrun.
  apply (for_range_inv
    (λ j t, pat t = pat s ∧ lastin t = in_ s)) in Ha; cycle 1.
  { done. }
  { intros j t t' Hj (Hp & Hl) Hbody. inv_bind Hbody.
    by injection Hbody as <-. }
  destruct Ha as (Hp1 & Hl1). rewrite Hp1 in Hrun.
  pose proof Hn as [Hirange Hload]%node_at_Some.
  apply (for_range_inv
    (λ j rt, j ≤ i ∧ pat rt.2 = pat s ∧ lastin rt.2 = in_ s)) in Hrun.
  - destruct Hrun as [Hle _]. lia.
  - simpl. split_and!; [lia | done..].
  - intros j [r0 t] [r' t'] Hj (Hji & Hp & Hl) Hbody. simpl in Hp, Hl.
    destruct (decide (j = i)) as [->|Hne].
    + exfalso. unfold feedc_scan in Hbody.
      destruct Hi as [Hi0 Hi].
      assert (load (lastin t) i = Ret true) as Hact
        by (apply load_Ret; rewrite Hl; done).
      rewrite Hact in Hbody. simpl in Hbody.
      assert (load (nfa (pat t)) i = Ret n) as Hnode
        by (apply load_Ret; rewrite Hp; done).
      rewrite Hnode in Hbody. simpl in Hbody. rewrite E in Hbody.
      inv_bind Hbody. apply load_Ret in Ha as [Hc0 Hx].
      apply lookup_lt_Some in Hx. lia.
    + apply (feedc_scan_spec _ s) in Hbody as (Hp' & Hl' & _);
        [|lia|done..].
      simpl. split_and!; [lia | done..].
Qed.

Lemma cre_sim_feedc_table_bounds_witness :
  active (in_ sim_a_star_fed) 1 ∧
  returns (cre_sim_feedc 7 sim_a_star_fed 256) = false.
Proof.
  split; [by split|].
  apply (cre_sim_feedc_table_bounds 7 sim_a_star_fed 256 1
           {| kind := cre_SET; u := 0; v := -1; set := set_a |});
    [by split | reflexivity | reflexivity | right; simpl; lia].
Defined.

Lemma table_indices_cons (c : Z) (cs : list Z) :
  table_indices (c :: cs) = true ↔ 0 ≤ c < 256 ∧ table_indices cs = true.
Proof.
  unfold table_indices. simpl. by rewrite andb_true_iff, bool_decide_eq_true.
Qed.

(** X10: on a well-formed simulator whose pattern has no epsilon cycle,
    every sequence of table indices is consumed: with a budget of
    [closure_fuel] or more the feeds all return, one result per byte, and
    leave a well-formed simulator of the same pattern. *)
Theorem cre_sim_feeds_total (rk : Z → nat) (fuel : nat) (cs : list Z) :
  ∀ s : cre_sim,
    sim_ok s = true → eps_ranked (pat s) rk = true →
    table_indices cs = true →
    (closure_fuel (pat s) rk ≤ fuel)%nat →
    ∃ rs s', cre_sim_feeds fuel s cs = Ret (rs, s') ∧
             length rs = length cs ∧ sim_ok s' = true ∧ pat s' = pat s.
Proof.
  induction cs as [|c cs IH]; intros s Hok Hrk Hcs Hfuel.
  { exists [], s. done. }
  apply table_indices_cons in Hcs as [Hc Hcs]. simpl.
  destruct (cre_sim_feedc_total rk fuel s c) as (r & s1 & Hrun); [done..|].
  rewrite Hrun. simpl.
  apply (cre_sim_feedc_ok _ _ _ _ _ Hok) in Hrun as [Hok1 Hp1].
  destruct (IH s1) as (rs & s' & -> & Hlen & Hok' & Hp');
    [done | by rewrite Hp1 | done | by rewrite Hp1 |].
  simpl. exists (r :: rs), s'. split_and!; [done | simpl; lia | done |].
  congruence.
Qed.

Lemma cre_sim_feeds_total_witness :
  sim_ok sim_a_star_fed = true ∧
  eps_ranked (pat sim_a_star_fed) rk_a_star = true ∧
  table_indices [97; 0; 255] = true ∧
  ∃ rs s', cre_sim_feeds 3 sim_a_star_fed [97; 0; 255] = Ret (rs, s') ∧
           length rs = length [97; 0; 255] ∧ sim_ok s' = true ∧
           pat s' = pat sim_a_star_fed.
Proof.
  split; [reflexivity|]. split; [reflexivity|]. split; [reflexivity|].
  apply (cre_sim_feeds_total rk_a_star 3 [97; 0; 255] sim_a_star_fed);
    [reflexivity | reflexivity | reflexivity | vm_compute; lia].
Defined.

(** * Further properties of the iterator *)

Lemma iter_frame_refl (it : cre_iter) : iter_frame it it.
Proof. done. Qed.

Lemma iter_frame_trans (it1 it2 it3 : cre_iter) :
  iter_frame it1 it2 → iter_frame it2 it3 → iter_frame it1 it3.
Proof.
  unfold iter_frame. intros (?&?&?&?) (?&?&?&?). split_and!; congruence.
Qed.

Lemma int_val_Ret (z n : Z) : int_val z = Ret n → n = z.
Proof. unfold int_val. case_bool_decide; [by intros [= <-] | done]. Qed.

(** The pool after [grow_paths]: the frame, the number of paths in use
    and the new capacity. *)
Lemma grow_paths_frame (jb : bool) (ji : Z) (it it' : cre_iter) (i' : Z) :
  grow_paths jb ji it = Ret (it', i') →
  iter_frame it it' ∧ paths_len it' = paths_len it ∧
  paths_cap it' = paths_len it * 2 + 4.
Proof.
  unfold grow_paths. intros Hrun. inv_bind Hrun. rename a into cap.
  apply int_val_Ret in Ha as ->. inv_bind Hrun. injection Hrun as <- <-.
  apply (for_range_inv
    (λ _ t, iter_frame it t ∧ paths_len t = paths_len it ∧
            paths_cap t = paths_len it * 2 + 4)) in Ha.
  - done.
  - done.
  - intros j t t' _ (Hf & Hl & Hc) Hbody.
    inv_bind Hbody. inv_bind Hbody. inv_bind Hbody.
    by injection Hbody as <-.
Qed.

(** A pass through the body of the loop that returns keeps the frame and
    the capacity, and adds at most one path, and only when it raises
    [has_newpath]: a pass that enlarges the pool does not return. *)
Lemma feedc_body_frame (jb : bool) (ji : Z) (fuel : nat) (c : Z)
      (it it' : cre_iter) (i i' : Z) (hn hn' : bool) :
  feedc_body jb ji fuel c it i hn = Ret (it', i', hn') →
  iter_frame it it' ∧
  paths_len it' ≤ paths_len it + (if negb hn && hn' then 1 else 0) ∧
  (hn = true → hn' = true) ∧
  paths_cap it' = paths_cap it ∧
  length (paths it') = length (paths it) ∧ i' = i.
Proof.
  unfold feedc_body. intros Hrun.
  inv_bind Hrun. rename a into pv. apply load_Ret in Ha as [Hi0 Hpv].
  inv_bind Hrun. destruct a as [[[it1 i1] hn1] live]. rename Ha into Hsp.
  destruct live; simpl in Hrun; [|discriminate].
  assert (iter_frame it it1 ∧
          paths_len it1 ≤ paths_len it + (if negb hn && hn1 then 1 else 0) ∧
          (hn = true → hn1 = true) ∧
          paths_cap it1 = paths_cap it ∧
          length (paths it1) = length (paths it) ∧ i1 = i)
    as (Hf1 & Hl1 & Hh1 & Hc1 & Hn1 & ->).
  { clear Hrun.
    destruct (negb hn && bool_decide (Ms pv < 0)) eqn:B1.
    - inv_bind Hsp. apply store_Ret in Ha as [_ ->].
      injection Hsp as <- <- <-. simpl. rewrite length_insert.
      apply andb_true_iff in B1 as [->%negb_true_iff _]. simpl.
      split_and!; try done. lia.
    - destruct (negb hn && bool_decide (i = paths_len it - 1)) eqn:B2.
      + apply andb_true_iff in B2 as [->%negb_true_iff Hlast].
        inv_bind Hsp. destruct a as [[it2 i2] live2].
        inv_bind Hsp. inv_bind Hsp. inv_bind Hsp.
        match goal with
        | H : int_val _ = Ret _ |- _ => apply int_val_Ret in H as ->
        end.
        match goal with
        | H : store _ _ _ = Ret _ |- _ => apply store_Ret in H as [_ ->]
        end.
        injection Hsp as <- <- <- ->. simpl. rewrite length_insert.
        destruct (bool_decide (paths_cap it ≤ paths_len it)).
        * inv_bind Ha.
          match goal with
          | H : (let '(_, _) := ?x in _) = Ret _ |- _ => by destruct x
          end.
        * injection Ha as <- <-. split_and!; try done; lia.
      + injection Hsp as <- <- <-. split_and!; try done.
        destruct hn; simpl; lia. }
  inv_bind Hrun. rename a into pv2.
  assert (iter_frame it1 it' ∧ paths_len it' ≤ paths_len it1 ∧
          hn' = hn1 ∧ paths_cap it' = paths_cap it1 ∧
          length (paths it') = length (paths it1) ∧ i' = i)
    as (Hf2 & Hl2 & -> & Hc2 & Hn2 & ->).
  { destruct (bool_decide (0 ≤ Ms pv2)); cycle 1.
    { by injection Hrun as <- <- <-. }
    inv_bind Hrun. destruct a as [ismatch s2].
    inv_bind Hrun.
    match goal with
    | H : store _ _ _ = Ret _ |- _ => apply store_Ret in H as [_ ->]
    end.
    inv_bind Hrun. rename a into has_instate.
    destruct has_instate; simpl in Hrun.
    { injection Hrun as <- <- <-. simpl. by rewrite length_insert. }
    destruct (bool_decide (0 ≤ Me _)).
    { injection Hrun as <- <- <-. simpl. by rewrite length_insert. }
    destruct (bool_decide (i = _ - 1)).
    - inv_bind Hrun.
      match goal with
      | H : int_val _ = Ret _ |- _ => apply int_val_Ret in H as ->
      end.
      injection Hrun as <- <- <-. simpl. rewrite length_insert.
      split_and!; try done. lia.
    - inv_bind Hrun.
      match goal with
      | H : store _ _ _ = Ret _ |- _ => apply store_Ret in H as [_ ->]
      end.
      injection Hrun as <- <- <-. simpl. by rewrite !length_insert. }
  split_and!; [by eapply iter_frame_trans | lia | done | congruence
              | congruence | done].
Qed.

Lemma feedc_loop_frame (jb : bool) (ji : Z) (fuel : nat) (c : Z) :
  ∀ (it it' : cre_iter) (i : Z) (hn : bool),
    feedc_loop jb ji fuel c it i hn = Ret it' →
    iter_frame it it' ∧
    paths_len it' ≤ paths_len it + (if hn then 0 else 1) ∧
    paths_cap it' = paths_cap it ∧
    length (paths it') = length (paths it).
Proof.
  induction fuel as [|fuel IH]; intros it it' i hn Hrun; simpl in Hrun;
    destruct (bool_decide (i < paths_len it));
    try discriminate;
    try (injection Hrun as <-; split_and!; [done | destruct hn; lia | done..]).
  inv_bind Hrun. destruct a as [[it1 i1] hn1].
  inv_bind Hrun. apply IH in Hrun as (Hf2 & Hl2 & Hc2 & Hn2).
  apply feedc_body_frame in Ha as (Hf1 & Hl1 & Hh1 & Hc1 & Hn1 & _).
  split_and!.
  - by eapply iter_frame_trans.
  - destruct hn, hn1; simpl in *; first [lia | by specialize (Hh1 eq_refl)].
  - congruence.
  - congruence.
Qed.

(** X11: a call of [cre_iter_feedc] that returns has not touched the
    pattern nor the byte buffer: the byte is not stored and [buf_len],
    the position new paths are anchored at, does not advance.  It has
    added at most one path to those in use, and the pool has the capacity
    and the number of slots it had: a call that enlarges the pool goes on
    through the pointer it took before [realloc], and does not return. *)
Theorem cre_iter_feedc_frame (jb : bool) (ji : Z) (fuel : nat)
        (it it' : cre_iter) (c : Z) :
  cre_iter_feedc jb ji fuel it c = Ret it' →
  iter_pat it' = iter_pat it ∧ buf_len it' = buf_len it ∧
  buf_cap it' = buf_cap it ∧ buf it' = buf it ∧
  paths_len it' ≤ paths_len it + 1 ∧ paths_cap it' = paths_cap it ∧
  length (paths it') = length (paths it).
Proof.
  unfold cre_iter_feedc.
  intros ((Hp & Hbl & Hbc & Hb) & Hl & Hc & Hn)%feedc_loop_frame.
  split_and!; done.
Qed.

Lemma cre_iter_feedc_frame_witness :
  ∃ it', cre_iter_feedc false 0 3 iter_a_one_path 97 = Ret it' ∧
         iter_pat it' = iter_pat iter_a_one_path ∧
         buf_len it' = buf_len iter_a_one_path ∧
         buf_cap it' = buf_cap iter_a_one_path ∧
         buf it' = buf iter_a_one_path ∧
         paths_len it' ≤ paths_len iter_a_one_path + 1 ∧
         paths_cap it' = paths_cap iter_a_one_path ∧
         length (paths it') = length (paths iter_a_one_path).
Proof.
  eexists. split; [reflexivity|].
  apply (cre_iter_feedc_frame false 0 3 iter_a_one_path _ 97). reflexivity.
Defined.

(** X12: on an array of as many entries as are scanned, the scan of
    [cre_iter_feedc] for a live state returns, and returns true exactly
    when some entry is set. *)
Theorem has_instate_from_all (a : list bool) :
  has_instate_from (length a) 0 a = Ret (negb (all_clear a)).
Proof.
  destruct (has_instate_from_spec (length a) 0 a) as (b & -> & Hb); [lia..|].
  f_equal. destruct (all_clear a) eqn:Hclear; simpl.
  - destruct b; [|done]. destruct (proj1 Hb eq_refl) as (i & _ & Hi).
    by apply (proj1 (all_clear_active _) Hclear) in Hi.
  - destruct b; [done|]. exfalso.
    assert (all_clear a = true); [|congruence].
    apply all_clear_active. intros i Hi.
    assert (false = true); [|done]. apply Hb. exists i. split; [|done].
    destruct Hi as [Hi0 Hi]. apply lookup_lt_Some in Hi. lia.
Qed.

(** A pass that has to append and finds the pool full does not return:
    whatever [grow_paths] and the append do, [p] is stale afterwards. *)
Lemma feedc_body_growth (jb : bool) (ji : Z) (fuel : nat) (c : Z)
      (it : cre_iter) (i : Z) (pv : cre_iter_path) :
  0 ≤ i → paths it !! Z.to_nat i = Some pv → 0 ≤ Ms pv →
  i = paths_len it - 1 → paths_cap it ≤ paths_len it →
  returns (feedc_body jb ji fuel c it i false) = false.
Proof.
  intros Hi Hpv HMs Hlast Hfull.
  destruct (feedc_body jb ji fuel c it i false) as [r| |] eqn:Hrun;
    [|done..].
  exfalso. unfold feedc_body in Hrun.
  assert (load (paths it) i = Ret pv) as Hload by (by apply load_Ret).
  rewrite Hload in Hrun. simpl in Hrun.
  rewrite (bool_decide_eq_false_2 (Ms pv < 0)) in Hrun by lia.
  rewrite (bool_decide_eq_true_2 (i = paths_len it - 1)) in Hrun by done.
  rewrite (bool_decide_eq_true_2 (paths_cap it ≤ paths_len it)) in Hrun
    by done.
  simpl in Hrun. inv_bind Hrun. destruct a as [[[it1 i1] hn1] live].
  inv_bind Ha. destruct a as [[it2 i2] live2].
  inv_bind Ha0. destruct a as [it3 i3]. injection Ha0 as <- <- <-.
  inv_bind Ha. inv_bind Ha. inv_bind Ha. injection Ha as <- <- <- <-.
  discriminate.
Qed.

(** X14: when an iterator has one path in use, started, and no spare
    slot, [cre_iter_feedc] does not return, for any byte and budget: the
    pass appends a path, which enlarges the pool with [realloc], and then
    tests [p->Ms] through the pointer it took into the old array. *)
Theorem cre_iter_feedc_growth_undefined
        (jb : bool) (ji : Z) (fuel : nat) (it : cre_iter) (c : Z)
        (pv : cre_iter_path) :
  paths_len it = 1 → paths_cap it ≤ 1 →
  paths it !! 0%nat = Some pv → 0 ≤ Ms pv →
  returns (cre_iter_feedc jb ji fuel it c) = false.
Proof.
  intros Hlen Hcap Hpv HMs. unfold cre_iter_feedc.
  destruct fuel as [|fuel]; simpl;
    rewrite bool_decide_eq_true_2 by lia; [done|].
  pose proof (feedc_body_growth jb ji fuel c it 0 pv) as Hbody.
  destruct (feedc_body jb ji fuel c it 0 false) as [r| |]; [|done..].
  discriminate Hbody; [lia | done | done | lia | lia].
Qed.

Lemma cre_iter_feedc_growth_undefined_witness :
  paths_len iter_abc_full = 1 ∧ paths_cap iter_abc_full ≤ 1 ∧
  returns (cre_iter_feedc true 7 9 iter_abc_full 97) = false.
Proof.
  split; [reflexivity|]. split; [simpl; lia|].
  apply (cre_iter_feedc_growth_undefined true 7 9 iter_abc_full 97
           {| sim := reset_state pat_abc; Ms := 0; Me := -1;
              Gs := [0; 0; 0]; Ge := [0; 0; 0] |});
    [reflexivity | simpl; lia | reflexivity | simpl; lia].
Defined.

Lemma pool_full_parts (it : cre_iter) :
  pool_full it = true ↔
  Z.of_nat (length (paths it)) = paths_cap it ∧ paths_len it = paths_cap it.
Proof. unfold pool_full. by rewrite andb_true_iff, !bool_decide_eq_true. Qed.

Lemma cre_sim_init_malloc (jb : bool) (p : cre_pat) :
  pat_ok p = true →
  cre_sim_init (malloc jb (nfa_len p)) (malloc jb (nfa_len p)) p
  = Ret (reset_state p).
Proof.
  intros Hok. pose proof (pat_ok_start _ Hok). unfold cre_sim_init.
  apply (cre_sim_reset_in_range
           {| pat := p; in_ := malloc jb (nfa_len p);
              lastin := malloc jb (nfa_len p) |}); [|done].
  apply sim_sized_parts. simpl. unfold malloc.
  rewrite length_replicate. lia.
Qed.

(** X13: when the pool is full, [grow_paths] returns a pool of twice as
    many slots and four more: the paths in use are kept as they are, every
    new slot is set up with the simulator [cre_sim_init] builds and two
    capture arrays, and the loop variable is left at the new capacity. *)
Theorem grow_paths_spec (jb : bool) (ji : Z) (it : cre_iter) :
  pool_full it = true → pat_ok (iter_pat it) = true →
  paths_len it ≤ 1073741821 →
  ∃ it', grow_paths jb ji it = Ret (it', paths_len it * 2 + 4) ∧
         iter_frame it it' ∧ paths_len it' = paths_len it ∧
         paths_cap it' = paths_len it * 2 + 4 ∧
         Z.of_nat (length (paths it')) = paths_cap it' ∧
         take (length (paths it)) (paths it') = paths it ∧
         ∀ k q, (length (paths it) ≤ k)%nat → paths it' !! k = Some q →
                slot_fresh ji (iter_pat it) q.
Proof.
  intros [Hlen Hfull]%pool_full_parts Hok Hmax.
  set (len := length (paths it)).
  assert (paths_len it = Z.of_nat len) as Hl by (subst len; lia).
  unfold grow_paths, int_val. rewrite bool_decide_eq_true_2 by lia. simpl.
  set (cap := paths_len it * 2 + 4).
  assert (realloc_paths ji (iter_pat it) (paths it) cap
          = paths it ++ replicate (Z.to_nat cap - len) (junk_path ji (iter_pat it)))
    as ->.
  { unfold realloc_paths. apply take_ge.
    rewrite length_app, length_replicate. fold len. lia. }
  set (body := λ (i : Z) (it : cre_iter), _).
  destruct (for_range_total
    (λ j t, iter_frame it t ∧ paths_len t = paths_len it ∧
            paths_cap t = cap ∧ Z.of_nat (length (paths t)) = cap ∧
            take len (paths t) = paths it ∧
            ∀ k q, (len ≤ k)%nat → Z.of_nat k < j → paths t !! k = Some q →
                   slot_fresh ji (iter_pat it) q)
    body (Z.to_nat (cap - paths_len it)) (paths_len it)
    (iter_set_paths (iter_set_paths_cap it cap)
       (paths it ++ replicate (Z.to_nat cap - len) (junk_path ji (iter_pat it)))))
    as (t & Hrun & Ht).
  - simpl. split_and!; try done.
    + rewrite length_app, length_replicate. fold len. lia.
    + unfold len. by rewrite take_app_length.
    + intros k q Hk1 Hk2. lia.
  - intros j t Hj (Hf & Hpl & Hpc & Hlt & Htake & Hnew). subst body. simpl.
    destruct (load_in_range (paths t) j) as [q Hq]; [lia|]. rewrite Hq. simpl.
    destruct Hf as (Hp & Hf). rewrite Hp, (cre_sim_init_malloc jb _ Hok).
    simpl. unfold store. rewrite bool_decide_eq_true_2 by lia. simpl.
    eexists. split; [done|]. simpl. rewrite length_insert.
    split_and!; try done.
    + rewrite take_insert_ge by lia. done.
    + intros k q' Hk1 Hk2 Hq'. destruct (decide (k = Z.to_nat j)) as [->|Hne].
      * rewrite list_lookup_insert_eq in Hq' by lia. by injection Hq' as <-.
      * rewrite list_lookup_insert_ne in Hq' by lia.
        apply (Hnew k); [done | lia | done].
  - simpl in Hrun. rewrite Hrun. simpl.
    destruct Ht as (Hf & Hpl & Hpc & Hlt & Htake & Hnew).
    exists t. split_and!; try done.
    + rewrite Hpl, Hpc. f_equal. f_equal. subst cap. lia.
    + lia.
    + intros k q Hk Hq. apply (Hnew k); [done| |done].
      apply lookup_lt_Some in Hq. lia.
Qed.

Lemma grow_paths_spec_witness :
  pool_full iter_abc_full = true ∧
  pat_ok (iter_pat iter_abc_full) = true ∧
  ∃ it', grow_paths true 7 iter_abc_full
           = Ret (it', paths_len iter_abc_full * 2 + 4) ∧
         iter_frame iter_abc_full it' ∧
         paths_len it' = paths_len iter_abc_full ∧
         paths_cap it' = paths_len iter_abc_full * 2 + 4 ∧
         Z.of_nat (length (paths it')) = paths_cap it' ∧
         take (length (paths iter_abc_full)) (paths it')
           = paths iter_abc_full ∧
         ∀ k q, (length (paths iter_abc_full) ≤ k)%nat →
                paths it' !! k = Some q →
                slot_fresh 7 (iter_pat iter_abc_full) q.
Proof.
  split; [reflexivity|]. split; [reflexivity|].
  apply (grow_paths_spec true 7 iter_abc_full);
    [reflexivity | reflexivity | simpl; lia].
Defined.
